(** * ROCR-Runtime: the kernel-driver abstraction layer

    A shallow embedding of
      - [core/inc/amd_xdna_driver.h]: the cache-flush helper [clflush_data]
        and the [XdnaDriver] members,
      - [core/inc/driver.h]: [DriverVersionInfo], [ShareableHandle], [Driver],
      - [core/util/memory.h]: [rocr::PermissionsToMmapFlags],
    followed by the properties proved about them.

    Pointers, [uintptr_t] and [size_t] are 64-bit unsigned values: elements
    of [Z] reduced with [wrap]. [long] results of [sysconf] are elements of
    [Z]. The process-wide and per-instance mutable state is threaded
    explicitly. *)

From Stdlib Require Import ZArith List Lia Bool String.
From stdpp Require Import gmap.
Import ListNotations.

Local Open Scope Z_scope.

(** ** Machine arithmetic *)

Module Machine.

(** Width of a pointer, of [uintptr_t] and of [size_t] on x86-64. *)
Definition ptr_bits : Z := 64.

Definition ptr_modulus : Z := 2 ^ ptr_bits.

(** Reduction of an arithmetic result to an unsigned 64-bit value. *)
Definition wrap (x : Z) : Z := x mod ptr_modulus.

(** [std::numeric_limits<uint32_t>::max()]. *)
Definition uint32_max : Z := 2 ^ 32 - 1.

End Machine.

(** ** [clflush_data] (amd_xdna_driver.h) *)

Module Clflush.
Import Machine.

(** The state the helper reads and writes.
    - [cacheline_size] is the function-local [static long cacheline_size],
      zero-initialised when the process starts;
    - [sysconf_calls] counts the calls of
      [sysconf(_SC_LEVEL1_DCACHE_LINESIZE)] made so far;
    - [flushes] lists the arguments of [_mm_clflush], oldest first. *)
Record World : Type := mkWorld {
  cacheline_size : Z;
  sysconf_calls : nat;
  flushes : list Z
}.

(** The world of a process that has not called [clflush_data] yet. *)
Definition process_start : World := mkWorld 0 0 [].

Section WithSysconf.

(** The environment: [sysconf n] is what the [n]-th call (from 0) of
    [sysconf(_SC_LEVEL1_DCACHE_LINESIZE)] returns. *)
Variable sysconf : nat -> Z.

(** The [do { _mm_clflush(cur); cur += cacheline_size; }
    while (cur <= lastline)] loop, run for at most [fuel] iterations.
    The result is the list of flushed addresses, in order, and whether
    the loop was left within [fuel] iterations. *)
Fixpoint flush_loop (fuel : nat) (L lastline cur : Z) : list Z * bool :=
  match fuel with
  | O => ([], false)
  | S fuel' =>
      let cur' := wrap (cur + L) in
      if cur' <=? lastline
      then let (tr, exited) := flush_loop fuel' L lastline cur' in
           (cur :: tr, exited)
      else ([cur], true)
  end.

(** The lazy discovery at the head of [clflush_data]: [inl] is the early
    [return] of a failed discovery, [inr] carries the world with which
    the function goes on. *)
Definition discover (w : World) : World + World :=
  if cacheline_size w =? 0 then
    let sz := sysconf (sysconf_calls w) in
    let w' := mkWorld (cacheline_size w) (S (sysconf_calls w)) (flushes w) in
    if sz <=? 0 then inl w'
    else inr (mkWorld sz (S (sysconf_calls w)) (flushes w))
  else inr w.

(** [(uintptr_t)(cur + len - 1) | (cacheline_size - 1)]. *)
Definition lastline_of (L cur len : Z) : Z :=
  Z.lor (wrap (cur + len - 1)) (wrap (L - 1)).

(** [clflush_data(base, offset, len)] with at most [fuel] iterations of
    its loop: the world reached, and whether the call has returned. *)
Definition clflush_data (fuel : nat) (w : World) (base offset len : Z)
  : World * bool :=
  match discover w with
  | inl w' => (w', true)
  | inr w1 =>
      let L := cacheline_size w1 in
      let cur := wrap (base + offset) in
      let lastline := lastline_of L cur len in
      let (tr, exited) := flush_loop fuel L lastline cur in
      (mkWorld L (sysconf_calls w1) (flushes w1 ++ tr), exited)
  end.

(** Successive calls, each given as [(base, offset, len)]. A call that
    does not return within [fuel] iterations ends the run. *)
Fixpoint run_calls (fuel : nat) (w : World) (cs : list (Z * Z * Z))
  : World * bool :=
  match cs with
  | [] => (w, true)
  | (base, offset, len) :: cs' =>
      let (w', returned) := clflush_data fuel w base offset len in
      if returned then run_calls fuel w' cs' else (w', false)
  end.

End WithSysconf.

(** The cache line (its index) that holds address [a], for lines of [L]
    bytes. *)
Definition line_of (L a : Z) : Z := a / L.

(** [n] addresses spaced [L] apart, from [cur]. *)
Fixpoint line_addrs (n : nat) (cur L : Z) : list Z :=
  match n with
  | O => []
  | S n' => cur :: line_addrs n' (cur + L) L
  end.

(** The size [L] is the one in use during a call made in world [w]:
    already cached, or discovered by that call. *)
Definition discovered (sysconf : nat -> Z) (w : World) (L : Z) : Prop :=
  0 < L /\
  (cacheline_size w = L \/
   (cacheline_size w = 0 /\ sysconf (sysconf_calls w) = L)).

(** Line [l] is the target of one of the flushes in [tr]. *)
Definition flushes_line (L : Z) (tr : list Z) (l : Z) : Prop :=
  exists c, In c tr /\ line_of L c = l.

(** The answers of a [sysconf] that fails once and then reports lines of 64
    bytes. *)
Definition sysconf_fails_once (n : nat) : Z :=
  match n with O => 0 | S _ => 64 end.

(** [n] consecutive line indices, from [l]. *)
Fixpoint consecutive (n : nat) (l : Z) : list Z :=
  match n with
  | O => []
  | S n' => l :: consecutive n' (l + 1)
  end.

(** What the static [cacheline_size] and the calls of [sysconf] made so far
    have to do with each other: either nothing is cached and every answer
    of [sysconf] so far was a failure, or the cached size is the first
    positive answer of [sysconf], which was its last call. *)
Definition discovery_inv (sysconf : nat -> Z) (w : World) : Prop :=
  (cacheline_size w = 0 /\
   forall m, (m < sysconf_calls w)%nat -> sysconf m <= 0)
  \/ (exists n, sysconf_calls w = S n /\ cacheline_size w = sysconf n /\
                0 < sysconf n /\ forall m, (m < n)%nat -> sysconf m <= 0).

End Clflush.

(** ** Permission translation (driver.h and util/memory.h) *)

Module Perm.

(** The enumerators of [hsa_access_permission_t] ([inc/hsa.h]) and the
    [PROT_*] macros ([<sys/mman.h>]) are declared outside the files
    embedded here, so the translation is stated over any values they may
    have. An [hsa_access_permission_t] is its underlying integer. *)
Class Abi : Type := mkAbi {
  HSA_ACCESS_PERMISSION_NONE : Z;
  HSA_ACCESS_PERMISSION_RO : Z;
  HSA_ACCESS_PERMISSION_WO : Z;
  HSA_ACCESS_PERMISSION_RW : Z;
  PROT_NONE : Z;
  PROT_READ : Z;
  PROT_WRITE : Z;
  (** The labels of one [switch] are pairwise different, or the
      translation unit is rejected. *)
  case_labels_distinct :
    HSA_ACCESS_PERMISSION_RO <> HSA_ACCESS_PERMISSION_WO /\
    HSA_ACCESS_PERMISSION_RO <> HSA_ACCESS_PERMISSION_RW /\
    HSA_ACCESS_PERMISSION_RO <> HSA_ACCESS_PERMISSION_NONE /\
    HSA_ACCESS_PERMISSION_WO <> HSA_ACCESS_PERMISSION_RW /\
    HSA_ACCESS_PERMISSION_WO <> HSA_ACCESS_PERMISSION_NONE /\
    HSA_ACCESS_PERMISSION_RW <> HSA_ACCESS_PERMISSION_NONE
}.

(** The usual values on Linux: [hsa.h] numbers the enumerators NONE, RO,
    WO, RW from 0 to 3, and [mman.h] has [PROT_NONE = 0], [PROT_READ = 1],
    [PROT_WRITE = 2]. *)
Definition linux : Abi :=
  mkAbi 0 1 2 3 0 1 2 ltac:(repeat split; discriminate).

Section WithAbi.
Context {abi : Abi}.

(** [Driver::PermissionsToMmapFlags] (driver.h, lines 83-96). *)
Definition Driver_PermissionsToMmapFlags (perms : Z) : Z :=
  if perms =? HSA_ACCESS_PERMISSION_RO then PROT_READ
  else if perms =? HSA_ACCESS_PERMISSION_WO then PROT_WRITE
  else if perms =? HSA_ACCESS_PERMISSION_RW then Z.lor PROT_READ PROT_WRITE
  else if perms =? HSA_ACCESS_PERMISSION_NONE then PROT_NONE
  else PROT_NONE.

(** [rocr::PermissionsToMmapFlags] (util/memory.h, lines 58-70). *)
Definition rocr_PermissionsToMmapFlags (perms : Z) : Z :=
  if perms =? HSA_ACCESS_PERMISSION_RO then PROT_READ
  else if perms =? HSA_ACCESS_PERMISSION_WO then PROT_WRITE
  else if perms =? HSA_ACCESS_PERMISSION_RW then Z.lor PROT_READ PROT_WRITE
  else if perms =? HSA_ACCESS_PERMISSION_NONE then PROT_NONE
  else PROT_NONE.

(** A value that is none of the four enumerators. *)
Definition unrecognized (perms : Z) : Prop :=
  perms <> HSA_ACCESS_PERMISSION_RO /\ perms <> HSA_ACCESS_PERMISSION_WO /\
  perms <> HSA_ACCESS_PERMISSION_RW /\ perms <> HSA_ACCESS_PERMISSION_NONE.

End WithAbi.

End Perm.

(** ** [rocr::core] (driver.h) *)

Module core.
Import Machine.

Record DriverVersionInfo : Type := mkDriverVersionInfo {
  major : Z;
  minor : Z
}.

Inductive DriverQuery : Type := GET_DRIVER_VERSION.

Inductive DriverType : Type := XDNA | KFD | NUM_DRIVER_TYPES.

(** Handle for exported / imported memory; [handle{}] is zero. *)
Record ShareableHandle : Type := mkShareableHandle {
  handle : Z
}.

Definition ShareableHandle_default : ShareableHandle := mkShareableHandle 0.

(** [bool IsValid() const { return handle != 0; }] *)
Definition IsValid (h : ShareableHandle) : bool := negb (handle h =? 0).

(** A call of a member function on an object held in a store: the object
    after the call, and the value returned. [IsValid] is [const]. *)
Definition call_IsValid (h : ShareableHandle) : ShareableHandle * bool :=
  (h, IsValid h).

(** The data members of [Driver]. *)
Record Driver : Type := mkDriver {
  kernel_driver_type_ : DriverType;
  version_ : DriverVersionInfo;
  devnode_name_ : string;
  fd_ : Z
}.

(** The default member initialiser of [version_] (lines 201-202). *)
Definition version_default : DriverVersionInfo :=
  mkDriverVersionInfo uint32_max uint32_max.

(** Modelled from the spec: the body of the constructor
    [Driver(DriverType kernel_driver_type, std::string devnode_name)], which
    the header only declares. A driver is "constructed with type+devnode";
    the members without a constructor argument take the default member
    initialisers of the header, [version_{max, max}] and [fd_ = -1]. *)
Definition Driver_new (kernel_driver_type : DriverType) (devnode_name : string)
  : Driver :=
  mkDriver kernel_driver_type version_default devnode_name (-1).

(** [const DriverVersionInfo &Version() const { return version_; }] *)
Definition Version (d : Driver) : DriverVersionInfo := version_ d.

Definition set_version (d : Driver) (v : DriverVersionInfo) : Driver :=
  mkDriver (kernel_driver_type_ d) v (devnode_name_ d) (fd_ d).

End core.

(** ** [rocr::AMD::XdnaDriver] (amd_xdna_driver.h)

    The header declares the members; the bodies of the member functions are
    in the driver's implementation file, which is not among the sources, so
    the operations below follow the design document. *)

Module AMD.
Import core.

(** Status codes, after the error taxonomy of the design. *)
Inductive Status : Type :=
| Success | InvalidArgument | NotFound | DeviceBusy | PermissionDenied
| OutOfMemory | AlreadyOpen | NotOpen | DriverUnsupported | InternalError.

(** The data members of [XdnaDriver]: the [Driver] base and the private
    members of the header. [nullptr] is address 0. The keys and values of
    the two tables are [uint32_t] handles and [void*] addresses. *)
Record XdnaDriver : Type := mkXdnaDriver {
  base : Driver;
  vmem_handle_mappings : gmap Z Z;
  vmem_addr_mappings : gmap Z Z;
  dev_heap_parent : Z;
  dev_heap_aligned : Z
}.

(** [static constexpr size_t dev_heap_size = 64 * 1024 * 1024;] *)
Definition dev_heap_size : Z := 64 * 1024 * 1024.

(** [static constexpr size_t dev_heap_align = 64 * 1024 * 1024;] *)
Definition dev_heap_align : Z := 64 * 1024 * 1024.

(** Modelled from the spec: the constructor [XdnaDriver(devnode_name)],
    whose body is missing. The instance is built on a [Driver] of type
    XDNA; the tables are empty and both heap pointers are [nullptr], as
    their default member initialisers say. *)
Definition XdnaDriver_new (devnode_name : string) : XdnaDriver :=
  mkXdnaDriver (Driver_new XDNA devnode_name) ∅ ∅ 0 0.

(** Modelled from the spec: [GetDevHeapByteSize()], whose body is missing.
    It "exposes the fixed device-heap size (64 MiB) as a queryable
    constant". It is a static member: it has no instance to read. *)
Definition GetDevHeapByteSize : Z := dev_heap_size.

(** *** The device heap *)

(** Modelled from the spec: the size of the anonymous mapping requested
    for [dev_heap_parent], "[dev_heap_size + dev_heap_align]". *)
Definition dev_heap_parent_size : Z := dev_heap_size + dev_heap_align.

(** Modelled from the spec: "the first address inside the parent mapping
    that is a multiple of [dev_heap_align]", for a mapping that starts at
    [p]. *)
Definition first_aligned (p align : Z) : Z := (p + align - 1) / align * align.

(** What the kernel and the OS answer during [Init]: the driver version
    (or a failed query), the base address of the anonymous mapping (or a
    failed [mmap]), and whether the aligned range could be mapped and
    registered as the device heap. *)
Record InitEnv : Type := mkInitEnv {
  version_answer : option (Z * Z);
  mmap_answer : option Z;
  heap_register_ok : bool
}.

(** Modelled from the spec: [QueryKernelModeDriver(query)], whose body is
    missing. It "supports only get driver version; populates version;
    fails if the ioctl fails". *)
Definition QueryKernelModeDriver (d : XdnaDriver) (query : DriverQuery)
    (answer : option (Z * Z)) : Status * XdnaDriver :=
  match query, answer with
  | GET_DRIVER_VERSION, Some (ma, mi) =>
      (Success,
       mkXdnaDriver (set_version (base d) (mkDriverVersionInfo ma mi))
         (vmem_handle_mappings d) (vmem_addr_mappings d)
         (dev_heap_parent d) (dev_heap_aligned d))
  | GET_DRIVER_VERSION, None => (DriverUnsupported, d)
  end.

(** Modelled from the spec: [InitDeviceHeap()], whose body is missing,
    after the four steps of the device heap allocation algorithm: map
    [dev_heap_parent_size] bytes as the parent, take the first multiple
    of [dev_heap_align] in it, make that address the aligned heap of
    [dev_heap_size] bytes, map and register it. A failure leaves no
    mapping behind: both pointers stay [nullptr]. *)
Definition InitDeviceHeap (d : XdnaDriver) (mmap_result : option Z)
    (register_ok : bool) : Status * XdnaDriver :=
  match mmap_result with
  | None => (OutOfMemory, d)
  | Some parent =>
      if register_ok then
        (Success,
         mkXdnaDriver (base d) (vmem_handle_mappings d) (vmem_addr_mappings d)
           parent (first_aligned parent dev_heap_align))
      else (OutOfMemory, d)
  end.

(** Modelled from the spec: [Init()], whose body is missing. It "returns
    failure if version query fails or device-heap setup fails". *)
Definition Init (d : XdnaDriver) (env : InitEnv) : Status * XdnaDriver :=
  match QueryKernelModeDriver d GET_DRIVER_VERSION (version_answer env) with
  | (Success, d1) => InitDeviceHeap d1 (mmap_answer env) (heap_register_ok env)
  | (err, _) => (err, d)
  end.

(** An address range: its first address and its length in bytes. *)
Definition range : Type := (Z * Z)%type.

(** The mapping owned by [dev_heap_parent]. *)
Definition dev_heap_parent_range (d : XdnaDriver) : range :=
  (dev_heap_parent d, dev_heap_parent_size).

(** The range exposed as the device heap. *)
Definition dev_heap_aligned_range (d : XdnaDriver) : range :=
  (dev_heap_aligned d, dev_heap_size).

(** [r] lies fully within [r']. *)
Definition range_within (r r' : range) : Prop :=
  fst r' <= fst r /\ fst r + snd r <= fst r' + snd r'.

(** *** The handle tables *)

Definition set_mappings (d : XdnaDriver) (hm am : gmap Z Z) : XdnaDriver :=
  mkXdnaDriver (base d) hm am (dev_heap_parent d) (dev_heap_aligned d).

(** The paired insertion and the paired removal of one entry. *)
Definition record_mapping (d : XdnaDriver) (h a : Z) : XdnaDriver :=
  set_mappings d (<[h := a]> (vmem_handle_mappings d))
                 (<[a := h]> (vmem_addr_mappings d)).

Definition forget_mapping (d : XdnaDriver) (h a : Z) : XdnaDriver :=
  set_mappings d (delete h (vmem_handle_mappings d))
                 (delete a (vmem_addr_mappings d)).

(** Modelled from the spec: the guard that makes the tables a bijection
    "enforced by construction, not by convention". The pair [(h, a)] can
    be recorded only when neither [h] nor [a] has an entry; a handle or an
    address that is already in a table is the "unexpected state" of the
    error taxonomy ("handle-mapping bijection violated"), and nothing is
    recorded. *)
Definition try_record_mapping (d : XdnaDriver) (h a : Z) : option XdnaDriver :=
  match vmem_handle_mappings d !! h, vmem_addr_mappings d !! a with
  | None, None => Some (record_mapping d h a)
  | _, _ => None
  end.

(** Modelled from the spec: [AllocateMemory], whose body is missing. The
    kernel answers the buffer-object request with a handle and the address
    it is mapped at, or fails. The call "must record the resulting
    handle/address pair in the handle-mapping tables before returning
    success" and fails with [InvalidArgument] when the region does not
    fit the node, with [OutOfMemory] when the request cannot be
    satisfied, with [InternalError] when the pair would break the
    bijection; "a failed allocation must not leave a partial
    handle-mapping entry". The result carries the address stored through
    [mem]. *)
Definition AllocateMemory (d : XdnaDriver) (region_fits_node : bool)
    (kernel : option (Z * Z)) : Status * option Z * XdnaDriver :=
  if negb region_fits_node then (InvalidArgument, None, d)
  else match kernel with
       | None => (OutOfMemory, None, d)
       | Some (h, a) =>
           match try_record_mapping d h a with
           | Some d' => (Success, Some a, d')
           | None => (InternalError, None, d)
           end
       end.

(** Modelled from the spec: [FreeMemory(mem, size)], whose body is
    missing. It "must remove the corresponding handle-mapping entries" and
    "fails if [mem] was never allocated by this driver instance". The
    kernel may refuse to release the buffer object, which leaves the
    tables as they were. *)
Definition FreeMemory (d : XdnaDriver) (mem : Z) (kernel_ok : bool)
  : Status * XdnaDriver :=
  match vmem_addr_mappings d !! mem with
  | None => (InvalidArgument, d)
  | Some h =>
      if kernel_ok then (Success, forget_mapping d h mem)
      else (InternalError, d)
  end.

(** Modelled from the spec: [ImportDMABuf], whose body is missing; "every
    successful allocate/import inserts one entry pair", under the same
    guard as an allocation. The result carries the new shareable handle. *)
Definition ImportDMABuf (d : XdnaDriver) (kernel : option (Z * Z))
  : Status * ShareableHandle * XdnaDriver :=
  match kernel with
  | None => (InvalidArgument, ShareableHandle_default, d)
  | Some (h, a) =>
      match try_record_mapping d h a with
      | Some d' => (Success, mkShareableHandle h, d')
      | None => (InternalError, ShareableHandle_default, d)
      end
  end.

(** Modelled from the spec: [ReleaseShareableHandle], whose body is
    missing; "every successful free/release removes" the entry pair, and
    "after success [handle.IsValid()] must be false". *)
Definition ReleaseShareableHandle (d : XdnaDriver) (h : ShareableHandle)
  : Status * ShareableHandle * XdnaDriver :=
  match vmem_handle_mappings d !! handle h with
  | None => (InvalidArgument, h, d)
  | Some a => (Success, ShareableHandle_default, forget_mapping d (handle h) a)
  end.

(** One call on a driver instance, with the kernel's answer to it. *)
Inductive call : Type :=
| CallAllocateMemory (region_fits_node : bool) (kernel : option (Z * Z))
| CallFreeMemory (mem : Z) (kernel_ok : bool)
| CallImportDMABuf (kernel : option (Z * Z))
| CallReleaseShareableHandle (h : ShareableHandle).

(** The instance after a call. *)
Definition step (d : XdnaDriver) (c : call) : XdnaDriver :=
  match c with
  | CallAllocateMemory fits kernel => snd (AllocateMemory d fits kernel)
  | CallFreeMemory mem ok => snd (FreeMemory d mem ok)
  | CallImportDMABuf kernel => snd (ImportDMABuf d kernel)
  | CallReleaseShareableHandle h => snd (ReleaseShareableHandle d h)
  end.

(** The instance after a sequence of calls. *)
Definition run (d : XdnaDriver) (cs : list call) : XdnaDriver :=
  fold_left step cs d.

(** The status a call returns. *)
Definition status_of (d : XdnaDriver) (c : call) : Status :=
  match c with
  | CallAllocateMemory fits kernel => fst (fst (AllocateMemory d fits kernel))
  | CallFreeMemory mem ok => fst (FreeMemory d mem ok)
  | CallImportDMABuf kernel => fst (fst (ImportDMABuf d kernel))
  | CallReleaseShareableHandle h => fst (fst (ReleaseShareableHandle d h))
  end.

(** The statuses of the calls of a sequence, in order. *)
Fixpoint statuses (d : XdnaDriver) (cs : list call) : list Status :=
  match cs with
  | [] => []
  | c :: cs' => status_of d c :: statuses (step d c) cs'
  end.

(** The two tables are exact inverses of each other. *)
Definition tables_inverse (d : XdnaDriver) : Prop :=
  forall h a : Z,
    vmem_handle_mappings d !! h = Some a <-> vmem_addr_mappings d !! a = Some h.

End AMD.

(** * Properties *)

(** ** Arithmetic of addresses and cache lines *)

Section AddressArithmetic.
Import Machine.

Lemma wrap_small (x : Z) : 0 <= x < ptr_modulus -> wrap x = x.
Proof. intros H. unfold wrap. now apply Z.mod_small. Qed.

Lemma ptr_modulus_eq : ptr_modulus = 18446744073709551616.
Proof. reflexivity. Qed.

(** Or-ing the low [k] bits into [x] moves [x] to the last address of its
    block of [2 ^ k] addresses. *)
Lemma lor_low_bits (x k : Z) :
  0 <= k -> Z.lor x (2 ^ k - 1) = x / 2 ^ k * 2 ^ k + (2 ^ k - 1).
Proof.
  intros Hk.
  assert (Hones : 2 ^ k - 1 = Z.ones k) by (rewrite Z.ones_equiv; lia).
  pose proof (Z.add_lor_land x (Z.ones k)) as Hsum.
  rewrite Z.land_ones in Hsum by assumption.
  rewrite Hones.
  assert (0 < 2 ^ k) by (apply Z.pow_pos_nonneg; lia).
  pose proof (Z.div_mod x (2 ^ k)) as Hdm.
  lia.
Qed.

(** A power of two below [2 ^ 63] divides the size of the address space. *)
Lemma pow2_divides_modulus (k : Z) :
  0 <= k < 63 -> ptr_modulus = 2 ^ (64 - k) * 2 ^ k.
Proof.
  intros Hk. unfold ptr_modulus, ptr_bits.
  rewrite <- Z.pow_add_r by lia. f_equal. lia.
Qed.

Lemma pow2_bounds (k : Z) : 0 <= k < 63 -> 0 < 2 ^ k < ptr_modulus.
Proof.
  intros Hk. split; [apply Z.pow_pos_nonneg; lia|].
  unfold ptr_modulus, ptr_bits. apply Z.pow_lt_mono_r; lia.
Qed.

End AddressArithmetic.

(** ** The flush loop *)

Section FlushLoop.
Import Machine Clflush.

Lemma line_addrs_length (n : nat) (cur L : Z) :
  List.length (line_addrs n cur L) = n.
Proof. revert cur. induction n as [|n IH]; intros cur; cbn; [reflexivity|]. now rewrite IH. Qed.

(** The [i]-th address of [line_addrs] is [cur + i * L]. *)
Lemma line_addrs_In (n : nat) (cur L i : Z) :
  0 <= i < Z.of_nat n -> In (cur + i * L) (line_addrs n cur L).
Proof.
  revert cur i. induction n as [|n IH]; intros cur i Hi; [lia|].
  cbn [line_addrs]. destruct (Z.eq_dec i 0) as [->|Hne].
  - left. lia.
  - right. replace (cur + i * L) with ((cur + L) + (i - 1) * L) by lia.
    apply IH. lia.
Qed.

(** Every address of [line_addrs] is some [cur + i * L]. *)
Lemma line_addrs_elim (n : nat) (cur L c : Z) :
  In c (line_addrs n cur L) -> exists i, 0 <= i < Z.of_nat n /\ c = cur + i * L.
Proof.
  revert cur. induction n as [|n IH]; intros cur Hin; [destruct Hin|].
  cbn [line_addrs] in Hin. destruct Hin as [<-|Hin].
  - exists 0. lia.
  - destruct (IH _ Hin) as (i & Hi & ->). exists (i + 1). lia.
Qed.

(** As long as the addresses stay at or below [lastline], the loop keeps
    flushing: its first [n + 1] flushes are [cur], [cur + L], ...,
    [cur + n * L]. *)
Lemma flush_loop_prefix (L lastline : Z) (n fuel : nat) (cur : Z) :
  0 < L -> 0 <= cur -> cur + Z.of_nat n * L <= lastline ->
  lastline < ptr_modulus -> (n < fuel)%nat ->
  exists rest, fst (flush_loop fuel L lastline cur) = line_addrs (S n) cur L ++ rest.
Proof.
  intros HL. revert fuel cur.
  induction n as [|n IH]; intros fuel cur Hcur Hle Hlast Hfuel.
  - destruct fuel as [|fuel]; [lia|]. cbn [flush_loop line_addrs].
    destruct (wrap (cur + L) <=? lastline).
    + destruct (flush_loop fuel L lastline (wrap (cur + L))) as [tr ex].
      exists tr. reflexivity.
    + exists []. reflexivity.
  - destruct fuel as [|fuel]; [lia|]. cbn [flush_loop].
    assert (Hw : wrap (cur + L) = cur + L) by (apply wrap_small; lia).
    rewrite Hw.
    destruct (Z.leb_spec (cur + L) lastline) as [_|Hgt]; [|lia].
    destruct (IH fuel (cur + L)) as [rest Hrest]; try lia.
    destruct (flush_loop fuel L lastline (cur + L)) as [tr ex].
    cbn [fst] in *. exists rest. rewrite Hrest. reflexivity.
Qed.

(** When one more line still fits in the address space above [lastline],
    the loop is left after the flush of the last address at or below
    [lastline]. *)
Lemma flush_loop_exit (L lastline : Z) (n fuel : nat) (cur : Z) :
  0 < L -> 0 <= cur <= lastline -> lastline + L < ptr_modulus ->
  (lastline - cur) / L = Z.of_nat n -> (n < fuel)%nat ->
  flush_loop fuel L lastline cur = (line_addrs (S n) cur L, true).
Proof.
  intros HL. revert fuel cur.
  induction n as [|n IH]; intros fuel cur Hcur Hlast Hn Hfuel;
    (destruct fuel as [|fuel]; [lia|]); cbn [flush_loop];
    assert (Hw : wrap (cur + L) = cur + L) by (apply wrap_small; lia);
    rewrite Hw.
  - assert (lastline - cur < L) by (apply Z.div_small_iff in Hn; lia).
    destruct (Z.leb_spec (cur + L) lastline) as [Hle|_]; [lia|]. reflexivity.
  - assert (Hstep : (lastline - (cur + L)) / L = Z.of_nat n).
    { replace (lastline - (cur + L)) with (lastline - cur + (-1) * L) by lia.
      rewrite Z.div_add by lia. lia. }
    assert (L <= lastline - cur).
    { destruct (Z.lt_ge_cases (lastline - cur) L) as [Hlt|]; [|assumption].
      rewrite Z.div_small in Hn by lia. lia. }
    destruct (Z.leb_spec (cur + L) lastline) as [_|Hgt]; [|lia].
    rewrite (IH fuel (cur + L)) by lia. reflexivity.
Qed.

(** When [lastline] is the last address of the address space the test of
    the loop holds for every address: the loop is never left. This is why
    the return of [clflush_data] is stated for ranges that end below the
    last cache line. *)
Lemma flush_loop_top_line (fuel : nat) (L cur : Z) :
  snd (flush_loop fuel L (ptr_modulus - 1) cur) = false.
Proof.
  revert cur. induction fuel as [|fuel IH]; intros cur; [reflexivity|].
  cbn [flush_loop].
  assert (Hw : wrap (cur + L) <= ptr_modulus - 1).
  { unfold wrap. pose proof (Z.mod_pos_bound (cur + L) ptr_modulus eq_refl). lia. }
  destruct (Z.leb_spec (wrap (cur + L)) (ptr_modulus - 1)) as [_|Hgt]; [|lia].
  specialize (IH (wrap (cur + L))).
  destruct (flush_loop fuel L (ptr_modulus - 1) (wrap (cur + L))) as [tr ex].
  exact IH.
Qed.

(** [lastline] is the last address of the cache line of the last byte. *)
Lemma lastline_of_eq (k cur len : Z) :
  0 <= k < 63 -> 0 <= cur + len - 1 < ptr_modulus ->
  lastline_of (2 ^ k) cur len = (cur + len - 1) / 2 ^ k * 2 ^ k + (2 ^ k - 1).
Proof.
  intros Hk Hlast. unfold lastline_of.
  pose proof (pow2_bounds k Hk).
  rewrite !wrap_small by lia. apply lor_low_bits. lia.
Qed.

(** The last address of a cache line is still in the address space. *)
Lemma line_end_in_range (k x : Z) :
  0 <= k < 63 -> 0 <= x < ptr_modulus ->
  x <= x / 2 ^ k * 2 ^ k + (2 ^ k - 1) < ptr_modulus.
Proof.
  intros Hk Hx. pose proof (pow2_bounds k Hk) as HL.
  pose proof (pow2_divides_modulus k Hk) as Hmod.
  pose proof (Z.div_mod x (2 ^ k)) as Hdm.
  pose proof (Z.mod_pos_bound x (2 ^ k)) as Hrem.
  assert (x / 2 ^ k < 2 ^ (64 - k)).
  { apply Z.div_lt_upper_bound; lia. }
  split; [lia|nia].
Qed.

(** The same, with room for one more line above. *)
Lemma line_end_below_top (k x : Z) :
  0 <= k < 63 -> 0 <= x -> x + 2 ^ k < ptr_modulus ->
  x / 2 ^ k * 2 ^ k + (2 ^ k - 1) + 2 ^ k < ptr_modulus.
Proof.
  intros Hk Hx Hroom. pose proof (pow2_bounds k Hk) as HL.
  pose proof (pow2_divides_modulus k Hk) as Hmod.
  assert (x / 2 ^ k + 1 < 2 ^ (64 - k)).
  { replace (x / 2 ^ k + 1) with ((x + 1 * 2 ^ k) / 2 ^ k)
      by (rewrite Z.div_add by lia; reflexivity).
    apply Z.div_lt_upper_bound; lia. }
  nia.
Qed.

(** Number of lines between the line of [cur] and the end of the line of
    [last], counted from the distance of the two addresses. *)
Lemma lines_between (L cur last : Z) :
  0 < L -> 0 <= cur ->
  (last / L * L + (L - 1) - cur) / L = last / L - cur / L.
Proof.
  intros HL Hcur.
  pose proof (Z.div_mod cur L) as Hdm.
  pose proof (Z.mod_pos_bound cur L) as Hrem.
  replace (last / L * L + (L - 1) - cur)
    with ((L - 1 - cur mod L) + (last / L - cur / L) * L) by lia.
  rewrite Z.div_add by lia. rewrite Z.div_small by lia. lia.
Qed.

End FlushLoop.

(** ** [clflush_data] *)

Section ClflushData.
Import Machine Clflush.

(** With the cache-line size [L] known, the call goes on to the loop in a
    world that caches [L] and has flushed nothing more yet. *)
Lemma discover_known (sysconf : nat -> Z) (w : World) (L : Z) :
  discovered sysconf w L ->
  exists w1, discover sysconf w = inr w1 /\
             cacheline_size w1 = L /\ flushes w1 = flushes w.
Proof.
  intros [HL [Hcached | [Hzero Hanswer]]]; unfold discover.
  - exists w. destruct (Z.eqb_spec (cacheline_size w) 0); [lia|]. auto.
  - rewrite Hzero, Hanswer. cbn.
    destruct (Z.leb_spec L 0); [lia|]. eexists; split; [reflexivity|]. auto.
Qed.

(** The flushes of a call that reaches the loop. *)
Lemma clflush_data_loop (sysconf : nat -> Z) (w w1 : World)
    (fuel : nat) (base offset len : Z) :
  discover sysconf w = inr w1 ->
  let run := flush_loop fuel (cacheline_size w1)
               (lastline_of (cacheline_size w1) (wrap (base + offset)) len)
               (wrap (base + offset)) in
  flushes (fst (clflush_data sysconf fuel w base offset len))
    = flushes w1 ++ fst run /\
  snd (clflush_data sysconf fuel w base offset len) = snd run.
Proof.
  intros Hd run. unfold clflush_data. rewrite Hd.
  fold run. destruct run as [tr ex]. cbn. auto.
Qed.

(** C1. For a byte range [[base+offset, base+offset+len)] of the 64-bit
    address space with [len >= 1], and a discovered cache-line size
    [L = 2 ^ k], [clflush_data] issues, before anything else, one flush in
    each cache line from the line of the first byte to the line of the last
    byte: at [first], [first + L], ..., [first + n * L], where [n] is the
    distance between those two lines. So every line that holds a byte of
    the range is flushed, whatever [len] is modulo [L], and for [len = 1].
    When the range ends below the last line of the address space the call
    returns after exactly these flushes. *)
Theorem clflush_data_flushes_every_line
    (sysconf : nat -> Z) (w : World) (base offset len k : Z) (fuel : nat) :
  let L := 2 ^ k in
  let first := base + offset in
  let last := base + offset + len - 1 in
  let n := Z.to_nat (line_of L last - line_of L first) in
  0 <= k < 63 ->
  discovered sysconf w L ->
  0 <= base -> 0 <= offset -> 1 <= len ->
  base + offset + len <= ptr_modulus ->
  (n < fuel)%nat ->
  exists rest,
    flushes (fst (clflush_data sysconf fuel w base offset len))
      = flushes w ++ line_addrs (S n) first L ++ rest
    /\ (forall a, first <= a <= last ->
          flushes_line L (line_addrs (S n) first L) (line_of L a))
    /\ (forall c, In c (line_addrs (S n) first L) ->
          line_of L first <= line_of L c <= line_of L last)
    /\ (base + offset + len + L <= ptr_modulus ->
          rest = [] /\ snd (clflush_data sysconf fuel w base offset len) = true).
Proof.
  intros L first last n Hk Hdisc Hbase Hoff Hlen Hrange Hfuel.
  pose proof (pow2_bounds k Hk) as HL. fold L in HL.
  destruct (discover_known _ _ _ Hdisc) as (w1 & Hd & HL1 & Hfl).
  destruct (clflush_data_loop sysconf w w1 fuel base offset len Hd) as [Htr Hex].
  rewrite HL1, Hfl in *.
  assert (Hfirst : wrap (base + offset) = first) by (apply wrap_small; lia).
  rewrite Hfirst in *.
  assert (Hlastline : lastline_of L first len = last / L * L + (L - 1)).
  { unfold L. rewrite lastline_of_eq by (fold first; lia). reflexivity. }
  rewrite Hlastline in *.
  assert (Hlines : line_of L first <= line_of L last).
  { unfold line_of. apply Z.div_le_mono; lia. }
  assert (Hn : Z.of_nat n = last / L - first / L).
  { unfold n, line_of in *. lia. }
  pose proof (line_end_in_range k last Hk ltac:(lia)) as Hend. fold L in Hend.
  pose proof (Z.div_mod first L ltac:(lia)) as Hdm.
  pose proof (Z.mod_pos_bound first L ltac:(lia)) as Hrem.
  destruct (flush_loop_prefix L (last / L * L + (L - 1)) n fuel first)
    as [rest Hrest]; try lia.
  exists rest. split; [|split; [|split]].
  - rewrite Htr, Hrest. reflexivity.
  - intros a Ha. exists (first + (a / L - first / L) * L). split.
    + apply line_addrs_In.
      assert (first / L <= a / L <= last / L)
        by (split; apply Z.div_le_mono; lia).
      lia.
    + unfold line_of. rewrite Z.div_add by lia. lia.
  - intros c Hc. apply line_addrs_elim in Hc as (i & Hi & ->).
    unfold line_of in *. rewrite Z.div_add by lia. lia.
  - intros Hroom.
    pose proof (line_end_below_top k last Hk ltac:(lia) ltac:(lia)) as Htop.
    fold L in Htop.
    assert (Hexit : flush_loop fuel L (last / L * L + (L - 1)) first
                    = (line_addrs (S n) first L, true)).
    { apply flush_loop_exit; try lia. rewrite lines_between by lia. lia. }
    rewrite Hexit in Hrest, Hex. cbn [fst snd] in Hrest, Hex.
    split; [|assumption].
    rewrite <- (app_nil_r (line_addrs (S n) first L)) in Hrest at 1.
    apply app_inv_head in Hrest. congruence.
Qed.

(** The body of a do-while loop runs before its test: the first flush is at
    the start address, whatever [lastline] is. *)
Lemma flush_loop_first (fuel : nat) (L lastline cur : Z) :
  (0 < fuel)%nat ->
  exists rest, fst (flush_loop fuel L lastline cur) = cur :: rest.
Proof.
  intros Hfuel. destruct fuel as [|fuel]; [lia|]. cbn [flush_loop].
  destruct (wrap (cur + L) <=? lastline).
  - destruct (flush_loop fuel L lastline (wrap (cur + L))) as [tr ex].
    exists tr. reflexivity.
  - exists []. reflexivity.
Qed.

(** C10, as the code has it. With the cache-line size [L] discovered, a call
    with [len = 0] is not a no-op: the loop body runs at least once and its
    first flush is at [base + offset], so the line flushed is the one that
    holds [base + offset], aligned or not. For a start address of at least
    1 with one more line of room above it, and [L = 2 ^ k], that flush is
    the only one and the call returns; the line before is not flushed. *)
Theorem clflush_data_zero_length
    (sysconf : nat -> Z) (w : World) (base offset L : Z) (fuel : nat) :
  discovered sysconf w L ->
  (0 < fuel)%nat ->
  (exists rest,
     flushes (fst (clflush_data sysconf fuel w base offset 0))
       = flushes w ++ wrap (base + offset) :: rest)
  /\ (forall k, L = 2 ^ k -> 0 <= k < 63 ->
      0 <= base -> 0 <= offset -> 1 <= base + offset ->
      base + offset + L < ptr_modulus ->
      flushes (fst (clflush_data sysconf fuel w base offset 0))
        = flushes w ++ [base + offset]
      /\ snd (clflush_data sysconf fuel w base offset 0) = true
      /\ flushes_line L [base + offset] (line_of L (base + offset))
      /\ ~ flushes_line L [base + offset] (line_of L (base + offset) - 1)).
Proof.
  intros Hdisc Hfuel.
  destruct (discover_known _ _ _ Hdisc) as (w1 & Hd & HL1 & Hfl).
  destruct (clflush_data_loop sysconf w w1 fuel base offset 0 Hd) as [Htr Hex].
  rewrite HL1, Hfl in *. split.
  - destruct (flush_loop_first fuel L
                (lastline_of L (wrap (base + offset)) 0) (wrap (base + offset)) Hfuel)
      as [rest Hrest].
    exists rest. rewrite Htr, Hrest. reflexivity.
  - intros k -> Hk Hbase Hoff Hone Hroom.
    pose proof (pow2_bounds k Hk) as HL.
    assert (Hfirst : wrap (base + offset) = base + offset)
      by (apply wrap_small; lia).
    rewrite Hfirst in *.
    rewrite lastline_of_eq in Htr, Hex by lia.
    pose proof (Z.div_mod (base + offset + 0 - 1) (2 ^ k) ltac:(lia)) as Hdm.
    pose proof (Z.mod_pos_bound (base + offset + 0 - 1) (2 ^ k) ltac:(lia)) as Hrem.
    destruct fuel as [|fuel]; [lia|]. cbn [flush_loop] in Htr, Hex.
    rewrite (wrap_small (base + offset + 2 ^ k)) in Htr, Hex by lia.
    match type of Hex with context [?a <=? ?b] =>
      destruct (Z.leb_spec a b) as [Hle|_]; [lia|] end.
    cbn [fst snd] in Htr, Hex. repeat split; try assumption.
    + exists (base + offset). split; [left|]; reflexivity.
    + intros (c & [<-|[]] & Hc). lia.
Qed.

(** The same call at a line-aligned start address, [base + offset = 64] with
    lines of 64 bytes: the call returns after one flush, at address 64. The
    line flushed is line 1, which holds address 64; line 0, the line before,
    is not flushed. *)
Lemma clflush_data_zero_length_aligned_flushes_own_line :
  let r := clflush_data (fun _ => 64) 8 process_start 64 0 0 in
  64 mod 64 = 0
  /\ r = (mkWorld 64 1 [64], true)
  /\ line_of 64 64 = 1
  /\ ~ flushes_line 64 (flushes (fst r)) (line_of 64 64 - 1).
Proof.
  cbv zeta. repeat split.
  intros (c & Hin & Hc). vm_compute in Hin.
  destruct Hin as [<-|[]]. vm_compute in Hc. discriminate.
Qed.

(** A call made while discovery fails is a no-op that returns; it leaves
    [cacheline_size] at 0 and only counts one more call of [sysconf]. *)
Lemma clflush_data_failed_discovery
    (sysconf : nat -> Z) (fuel : nat) (w : World) (base offset len : Z) :
  cacheline_size w = 0 -> sysconf (sysconf_calls w) <= 0 ->
  clflush_data sysconf fuel w base offset len
    = (mkWorld 0 (S (sysconf_calls w)) (flushes w), true).
Proof.
  intros Hzero Hfail. unfold clflush_data, discover. rewrite Hzero. cbn.
  destruct (Z.leb_spec (sysconf (sysconf_calls w)) 0); [reflexivity|lia].
Qed.

(** While [sysconf] keeps failing, every call of a run tries the discovery
    again and flushes nothing. *)
Lemma run_calls_failing_sysconf
    (sysconf : nat -> Z) (fuel : nat) (cs : list (Z * Z * Z)) (w : World) :
  (forall n, sysconf n <= 0) -> cacheline_size w = 0 ->
  run_calls sysconf fuel w cs
    = (mkWorld 0 (List.length cs + sysconf_calls w) (flushes w), true).
Proof.
  intros Hfail. revert w.
  induction cs as [|[[base offset] len] cs IH]; intros w Hzero; cbn [run_calls].
  - destruct w as [sz calls fl]. cbn in *. subst. reflexivity.
  - rewrite clflush_data_failed_discovery by auto.
    rewrite IH by reflexivity. cbn. do 2 f_equal. lia.
Qed.

(** C5, as the code has it. A cached cache-line size is kept and [sysconf]
    is not called again; a successful discovery is cached by the call that
    makes it; a failed discovery (a non-positive answer of [sysconf]) turns
    that call into a no-op that returns without a flush, but nothing is
    latched: [cacheline_size] stays 0, so the next call asks [sysconf]
    again. A run of calls stays without flushes only as long as [sysconf]
    keeps failing, with one call of [sysconf] per call of [clflush_data]. *)
Theorem clflush_data_discovery
    (sysconf : nat -> Z) (fuel : nat) (w : World) (base offset len : Z) :
  let r := clflush_data sysconf fuel w base offset len in
  (cacheline_size w <> 0 ->
     cacheline_size (fst r) = cacheline_size w /\
     sysconf_calls (fst r) = sysconf_calls w)
  /\ (cacheline_size w = 0 -> 0 < sysconf (sysconf_calls w) ->
     cacheline_size (fst r) = sysconf (sysconf_calls w) /\
     sysconf_calls (fst r) = S (sysconf_calls w))
  /\ (cacheline_size w = 0 -> sysconf (sysconf_calls w) <= 0 ->
     r = (mkWorld 0 (S (sysconf_calls w)) (flushes w), true))
  /\ ((forall n, sysconf n <= 0) ->
     forall cs, run_calls sysconf fuel process_start cs
                = (mkWorld 0 (List.length cs) [], true)).
Proof.
  intros r. subst r. repeat apply conj.
  - intros Hne. unfold clflush_data, discover.
    destruct (Z.eqb_spec (cacheline_size w) 0) as [|_]; [contradiction|].
    destruct (flush_loop _ _ _ _). cbn. auto.
  - intros Hzero Hpos. unfold clflush_data, discover. rewrite Hzero. cbn.
    destruct (Z.leb_spec (sysconf (sysconf_calls w)) 0); [lia|].
    cbn. destruct (flush_loop _ _ _ _). cbn. auto.
  - apply clflush_data_failed_discovery.
  - intros Hfail cs.
    rewrite run_calls_failing_sysconf by (auto; reflexivity).
    cbn. do 2 f_equal. lia.
Qed.

(** A failed discovery is not latched. With a [sysconf] that always fails,
    two calls of [clflush_data] make two calls of [sysconf]. With
    [sysconf_fails_once], the first call of [clflush_data] is a no-op; the
    second call asks [sysconf] a second time, caches 64 and flushes the line
    of the buffer. *)
Lemma clflush_data_failure_not_latched :
  let fail1 := clflush_data (fun _ => 0) 8 process_start 4096 0 64 in
  let fail2 := clflush_data (fun _ => 0) 8 (fst fail1) 4096 0 64 in
  let call1 := clflush_data sysconf_fails_once 8 process_start 4096 0 64 in
  let call2 := clflush_data sysconf_fails_once 8 (fst call1) 4096 0 64 in
  sysconf_calls (fst fail1) = 1%nat
  /\ sysconf_calls (fst fail2) = 2%nat
  /\ call1 = (mkWorld 0 1 [], true)
  /\ call2 = (mkWorld 64 2 [4096], true)
  /\ flushes (fst call2) <> flushes (fst call1).
Proof. cbv zeta. repeat split. discriminate. Qed.

(** Three calls on a fresh process with lines of 64 bytes: a range of two
    whole lines, a range that straddles a line boundary, and one byte at
    the end of a line. *)
Example clflush_data_samples :
  clflush_data (fun _ => 64) 8 process_start 4096 0 128
    = (mkWorld 64 1 [4096; 4160], true)
  /\ clflush_data (fun _ => 64) 8 process_start 4096 60 10
    = (mkWorld 64 1 [4156; 4220], true)
  /\ clflush_data (fun _ => 64) 8 process_start 4096 63 1
    = (mkWorld 64 1 [4159], true).
Proof. repeat split. Qed.

(** The theorem at a buffer of 100 bytes that starts 10 bytes into a page,
    with lines of 64 bytes discovered by this very call: two lines are
    flushed and the call returns. *)
Lemma clflush_data_flushes_every_line_witness :
  exists rest,
    flushes (fst (clflush_data (fun _ => 64) 8 process_start 4096 10 100))
      = flushes process_start ++ [4106; 4170] ++ rest
    /\ (forall a, 4106 <= a <= 4205 ->
          flushes_line 64 [4106; 4170] (line_of 64 a))
    /\ (forall c, In c [4106; 4170] -> 64 <= line_of 64 c <= 65)
    /\ (4096 + 10 + 100 + 64 <= ptr_modulus ->
          rest = [] /\
          snd (clflush_data (fun _ => 64) 8 process_start 4096 10 100) = true).
Proof.
  apply (clflush_data_flushes_every_line (fun _ => 64) process_start
           4096 10 100 6 8).
  - lia.
  - split; [reflexivity|]. right. split; reflexivity.
  - lia.
  - lia.
  - lia.
  - vm_compute. discriminate.
  - vm_compute. lia.
Defined.

(** The theorem on the zero-length call at an unaligned address, with the
    line size already cached. *)
Lemma clflush_data_zero_length_witness :
  (exists rest,
     flushes (fst (clflush_data (fun _ => 64) 8 (mkWorld 64 1 []) 4096 10 0))
       = [] ++ wrap (4096 + 10) :: rest)
  /\ flushes (fst (clflush_data (fun _ => 64) 8 (mkWorld 64 1 []) 4096 10 0))
     = [4106]
  /\ snd (clflush_data (fun _ => 64) 8 (mkWorld 64 1 []) 4096 10 0) = true.
Proof.
  destruct (clflush_data_zero_length (fun _ => 64) (mkWorld 64 1 []) 4096 10 64 8)
    as [Hfirst Honly].
  - split; [reflexivity|]. left. reflexivity.
  - lia.
  - split; [exact Hfirst|].
    destruct (Honly 6) as (Hfl & Hret & _); try lia; try reflexivity.
    split; assumption.
Defined.

(** The theorem on discovery at the start of a process: with a [sysconf]
    that fails the first call is a no-op and a run of three calls asks
    [sysconf] three times; with lines of 64 bytes the size is cached. *)
Lemma clflush_data_discovery_witness :
  clflush_data (fun _ => 0) 8 process_start 4096 0 64
    = (mkWorld 0 1 [], true)
  /\ run_calls (fun _ => 0) 8 process_start
       [(4096, 0, 64); (4096, 64, 1); (8192, 0, 0)]
     = (mkWorld 0 3 [], true)
  /\ cacheline_size (fst (clflush_data (fun _ => 64) 8 process_start 4096 0 64))
     = 64.
Proof.
  destruct (clflush_data_discovery (fun _ => 0) 8 process_start 4096 0 64)
    as (_ & _ & Hfail & Hrun).
  destruct (clflush_data_discovery (fun _ => 64) 8 process_start 4096 0 64)
    as (_ & Hcache & _ & _).
  split; [apply Hfail; [reflexivity | cbn; lia]|].
  split; [apply (Hrun ltac:(intros; cbn; lia))|].
  apply Hcache; [reflexivity | cbn; lia].
Defined.

End ClflushData.

(** ** Permission translation *)

Section Permissions.
Import Perm.
Context {abi : Abi}.

(** The [switch] of [Driver::PermissionsToMmapFlags], case by case. *)
Lemma Driver_PermissionsToMmapFlags_cases (perms : Z) :
  (perms = HSA_ACCESS_PERMISSION_RO /\
     Driver_PermissionsToMmapFlags perms = PROT_READ)
  \/ (perms = HSA_ACCESS_PERMISSION_WO /\
     Driver_PermissionsToMmapFlags perms = PROT_WRITE)
  \/ (perms = HSA_ACCESS_PERMISSION_RW /\
     Driver_PermissionsToMmapFlags perms = Z.lor PROT_READ PROT_WRITE)
  \/ (perms = HSA_ACCESS_PERMISSION_NONE /\
     Driver_PermissionsToMmapFlags perms = PROT_NONE)
  \/ (unrecognized perms /\ Driver_PermissionsToMmapFlags perms = PROT_NONE).
Proof.
  pose proof case_labels_distinct as (H1 & H2 & H3 & H4 & H5 & H6).
  unfold Driver_PermissionsToMmapFlags, unrecognized.
  destruct (Z.eqb_spec perms HSA_ACCESS_PERMISSION_RO); [auto|].
  destruct (Z.eqb_spec perms HSA_ACCESS_PERMISSION_WO); [auto|].
  destruct (Z.eqb_spec perms HSA_ACCESS_PERMISSION_RW); [auto 6|].
  destruct (Z.eqb_spec perms HSA_ACCESS_PERMISSION_NONE); [auto 6|].
  auto 10.
Qed.

(** C2. The translation is a function defined on every value of
    [hsa_access_permission_t]: each value has exactly one image, which is
    [PROT_READ] for RO, [PROT_WRITE] for WO, [PROT_READ | PROT_WRITE] for
    RW, and [PROT_NONE] for NONE and for every value that is none of the
    four enumerators. Both copies of the translation are covered. *)
Theorem PermissionsToMmapFlags_total_and_deterministic :
  (forall perms, exists! prot, Driver_PermissionsToMmapFlags perms = prot)
  /\ Driver_PermissionsToMmapFlags HSA_ACCESS_PERMISSION_RO = PROT_READ
  /\ Driver_PermissionsToMmapFlags HSA_ACCESS_PERMISSION_WO = PROT_WRITE
  /\ Driver_PermissionsToMmapFlags HSA_ACCESS_PERMISSION_RW
       = Z.lor PROT_READ PROT_WRITE
  /\ Driver_PermissionsToMmapFlags HSA_ACCESS_PERMISSION_NONE = PROT_NONE
  /\ (forall perms, unrecognized perms ->
        Driver_PermissionsToMmapFlags perms = PROT_NONE)
  /\ (forall perms, exists! prot, rocr_PermissionsToMmapFlags perms = prot)
  /\ rocr_PermissionsToMmapFlags HSA_ACCESS_PERMISSION_RO = PROT_READ
  /\ rocr_PermissionsToMmapFlags HSA_ACCESS_PERMISSION_WO = PROT_WRITE
  /\ rocr_PermissionsToMmapFlags HSA_ACCESS_PERMISSION_RW
       = Z.lor PROT_READ PROT_WRITE
  /\ rocr_PermissionsToMmapFlags HSA_ACCESS_PERMISSION_NONE = PROT_NONE
  /\ (forall perms, unrecognized perms ->
        rocr_PermissionsToMmapFlags perms = PROT_NONE).
Proof.
  pose proof case_labels_distinct as (H1 & H2 & H3 & H4 & H5 & H6).
  assert (Hdet : forall f : Z -> Z, forall perms, exists! prot, f perms = prot).
  { intros f perms. exists (f perms). split; [reflexivity|]. auto. }
  assert (Hfun : forall perms,
             rocr_PermissionsToMmapFlags perms = Driver_PermissionsToMmapFlags perms)
    by reflexivity.
  assert (Hcase : forall label prot,
             Driver_PermissionsToMmapFlags label = prot ->
             rocr_PermissionsToMmapFlags label = prot)
    by (intros; now rewrite Hfun).
  assert (Hro : Driver_PermissionsToMmapFlags HSA_ACCESS_PERMISSION_RO = PROT_READ).
  { destruct (Driver_PermissionsToMmapFlags_cases HSA_ACCESS_PERMISSION_RO)
      as [[_ H]|[[E _]|[[E _]|[[E _]|[(E & _) _]]]]]; congruence. }
  assert (Hwo : Driver_PermissionsToMmapFlags HSA_ACCESS_PERMISSION_WO = PROT_WRITE).
  { destruct (Driver_PermissionsToMmapFlags_cases HSA_ACCESS_PERMISSION_WO)
      as [[E _]|[[_ H]|[[E _]|[[E _]|[(_ & E & _) _]]]]]; congruence. }
  assert (Hrw : Driver_PermissionsToMmapFlags HSA_ACCESS_PERMISSION_RW
                = Z.lor PROT_READ PROT_WRITE).
  { destruct (Driver_PermissionsToMmapFlags_cases HSA_ACCESS_PERMISSION_RW)
      as [[E _]|[[E _]|[[_ H]|[[E _]|[(_ & _ & E & _) _]]]]]; congruence. }
  assert (Hnone : Driver_PermissionsToMmapFlags HSA_ACCESS_PERMISSION_NONE = PROT_NONE).
  { destruct (Driver_PermissionsToMmapFlags_cases HSA_ACCESS_PERMISSION_NONE)
      as [[E _]|[[E _]|[[E _]|[[_ H]|[_ H]]]]]; congruence. }
  assert (Hother : forall perms, unrecognized perms ->
                     Driver_PermissionsToMmapFlags perms = PROT_NONE).
  { intros perms (U1 & U2 & U3 & U4).
    destruct (Driver_PermissionsToMmapFlags_cases perms)
      as [[E _]|[[E _]|[[E _]|[[E _]|[_ H]]]]]; congruence. }
  repeat apply conj; auto.
Qed.

(** C9. The member function of [Driver] and the free function of
    [util/memory.h] return the same protection flags for every value. *)
Theorem PermissionsToMmapFlags_copies_agree (perms : Z) :
  Driver_PermissionsToMmapFlags perms = rocr_PermissionsToMmapFlags perms.
Proof.
  unfold Driver_PermissionsToMmapFlags, rocr_PermissionsToMmapFlags.
  repeat match goal with |- context [?a =? ?b] => destruct (a =? b) end;
    reflexivity.
Qed.

End Permissions.

(** The translation with the values of Linux. *)
Example PermissionsToMmapFlags_linux :
  map (Perm.Driver_PermissionsToMmapFlags (abi := Perm.linux)) [0; 1; 2; 3; 4; -1]
  = [0; 1; 2; 3; 0; 0].
Proof. reflexivity. Qed.

(** ** [ShareableHandle] and [Driver] *)

Section DriverValues.
Import Machine core.

(** C6. A handle is valid exactly when it is not zero, and the call leaves
    the handle as it was. *)
Theorem IsValid_iff_handle_nonzero (h : ShareableHandle) :
  (IsValid h = true <-> handle h <> 0)
  /\ (IsValid h = false <-> handle h = 0)
  /\ call_IsValid h = (h, IsValid h).
Proof.
  unfold call_IsValid, IsValid.
  destruct (Z.eqb_spec (handle h) 0) as [E|E]; cbn;
    repeat split; intros; try congruence; try discriminate.
Qed.

(** C7. A newly constructed [Driver] reports the unknown version: both
    fields are the largest [uint32_t]. The same holds for the [Driver] base
    of a new [XdnaDriver]. *)
Theorem Version_of_new_Driver_is_unknown
    (kernel_driver_type : DriverType) (devnode_name : string) :
  Version (Driver_new kernel_driver_type devnode_name)
    = mkDriverVersionInfo 4294967295 4294967295
  /\ major (Version (Driver_new kernel_driver_type devnode_name)) = uint32_max
  /\ minor (Version (Driver_new kernel_driver_type devnode_name)) = uint32_max
  /\ Version (AMD.base (AMD.XdnaDriver_new devnode_name))
     = mkDriverVersionInfo uint32_max uint32_max.
Proof. repeat split. Qed.

End DriverValues.

(** ** The device heap of [XdnaDriver] *)

Section DeviceHeap.
Import core AMD.

(** C8. [GetDevHeapByteSize()] is the constant [dev_heap_size], 64 MiB; it
    is a static member and reads no instance. *)
Theorem GetDevHeapByteSize_is_dev_heap_size :
  GetDevHeapByteSize = dev_heap_size
  /\ GetDevHeapByteSize = 64 * 1024 * 1024
  /\ GetDevHeapByteSize = 67108864.
Proof. repeat split. Qed.

(** [first_aligned p align] is the least multiple of [align] from [p] on,
    and it is less than [align] away from [p]. *)
Lemma first_aligned_least (p align : Z) :
  0 < align ->
  p <= first_aligned p align < p + align
  /\ first_aligned p align mod align = 0
  /\ (forall q, p <= q -> q mod align = 0 -> first_aligned p align <= q).
Proof.
  intros Ha. unfold first_aligned.
  pose proof (Z.div_mod (p + align - 1) align ltac:(lia)) as Hdm.
  pose proof (Z.mod_pos_bound (p + align - 1) align Ha) as Hrem.
  split; [lia|]. split; [apply Z.mod_mul; lia|].
  intros q Hq Hmul.
  apply Z.mod_divide in Hmul; [|lia]. destruct Hmul as [m ->].
  assert ((p + align - 1) / align <= m); [|nia].
  apply Z.lt_succ_r. apply Z.div_lt_upper_bound; lia.
Qed.

(** [Init] succeeds exactly when the version query, the anonymous mapping
    and the registration of the heap all succeed. *)
Lemma Init_success (d d' : XdnaDriver) (env : InitEnv) :
  Init d env = (Success, d') <->
  exists ma mi parent,
    version_answer env = Some (ma, mi) /\ mmap_answer env = Some parent /\
    heap_register_ok env = true /\
    d' = mkXdnaDriver (set_version (base d) (mkDriverVersionInfo ma mi))
           (vmem_handle_mappings d) (vmem_addr_mappings d)
           parent (first_aligned parent dev_heap_align).
Proof.
  unfold Init, QueryKernelModeDriver, InitDeviceHeap.
  destruct env as [[[ma mi]|] [parent|] [|]]; cbn; split.
  all: try (intros [= <-]; eauto 10).
  all: try discriminate.
  all: try (intros (? & ? & ? & ? & ? & ? & ?); congruence).
Qed.

(** C4. After a successful [Init] the aligned heap starts at a multiple of
    [dev_heap_align], 64 MiB, spans [dev_heap_size], 64 MiB, and lies within
    the mapping of [dev_heap_parent], which starts where the OS placed the
    anonymous mapping, wherever that is. *)
Theorem Init_device_heap_invariant (d d' : XdnaDriver) (env : InitEnv) :
  Init d env = (Success, d') ->
  dev_heap_aligned d' mod dev_heap_align = 0
  /\ dev_heap_align = 64 * 1024 * 1024
  /\ snd (dev_heap_aligned_range d') = dev_heap_size
  /\ dev_heap_size = 64 * 1024 * 1024
  /\ range_within (dev_heap_aligned_range d') (dev_heap_parent_range d')
  /\ mmap_answer env = Some (dev_heap_parent d').
Proof.
  intros Hinit. apply Init_success in Hinit
    as (ma & mi & parent & _ & Hmap & _ & ->).
  destruct (first_aligned_least parent dev_heap_align) as (Hrange & Hmod & _);
    [reflexivity|].
  unfold range_within, dev_heap_aligned_range, dev_heap_parent_range,
    dev_heap_parent_size. cbn [dev_heap_aligned dev_heap_parent fst snd].
  repeat split; try assumption; lia.
Qed.

(** The theorem at a page-aligned base address that is not a multiple of
    64 MiB: the heap starts at the next multiple. *)
Lemma Init_device_heap_invariant_witness :
  let d := XdnaDriver_new "/dev/accel/accel0" in
  let env := mkInitEnv (Some (1, 0)) (Some 140025530552320) true in
  let d' := snd (Init d env) in
  fst (Init d env) = Success
  /\ dev_heap_aligned d' = 140025597526016
  /\ dev_heap_aligned d' mod dev_heap_align = 0
  /\ dev_heap_align = 64 * 1024 * 1024
  /\ snd (dev_heap_aligned_range d') = dev_heap_size
  /\ dev_heap_size = 64 * 1024 * 1024
  /\ range_within (dev_heap_aligned_range d') (dev_heap_parent_range d')
  /\ mmap_answer env = Some (dev_heap_parent d').
Proof.
  cbv zeta. split; [reflexivity|]. split; [reflexivity|].
  apply (Init_device_heap_invariant (XdnaDriver_new "/dev/accel/accel0")).
  reflexivity.
Defined.

End DeviceHeap.

(** ** The handle tables of [XdnaDriver] *)

Section HandleTables.
Import core AMD.

Lemma tables_inverse_new (devnode_name : string) :
  tables_inverse (XdnaDriver_new devnode_name).
Proof. intros h a. cbn. rewrite !lookup_empty. split; discriminate. Qed.

(** The paired insertion of a fresh handle and a fresh address keeps the
    tables inverse. *)
Lemma record_mapping_inverse (d : XdnaDriver) (h a : Z) :
  tables_inverse d ->
  vmem_handle_mappings d !! h = None -> vmem_addr_mappings d !! a = None ->
  tables_inverse (record_mapping d h a).
Proof.
  intros Hinv Hh Ha h' a'. cbn.
  destruct (decide (h' = h)) as [->|Hneh]; destruct (decide (a' = a)) as [->|Hnea].
  - rewrite !lookup_insert_eq. tauto.
  - rewrite lookup_insert_eq, lookup_insert_ne by congruence. split.
    + congruence.
    + intros Hlook. apply Hinv in Hlook. congruence.
  - rewrite lookup_insert_eq, lookup_insert_ne by congruence. split.
    + intros Hlook. apply Hinv in Hlook. congruence.
    + congruence.
  - rewrite !lookup_insert_ne by congruence. apply Hinv.
Qed.

(** The paired removal of an entry keeps the tables inverse. *)
Lemma forget_mapping_inverse (d : XdnaDriver) (h a : Z) :
  tables_inverse d -> vmem_handle_mappings d !! h = Some a ->
  tables_inverse (forget_mapping d h a).
Proof.
  intros Hinv Hh h' a'. cbn.
  pose proof (proj1 (Hinv h a) Hh) as Ha.
  destruct (decide (h' = h)) as [->|Hneh]; destruct (decide (a' = a)) as [->|Hnea].
  - rewrite !lookup_delete_eq. split; discriminate.
  - rewrite lookup_delete_eq, lookup_delete_ne by congruence. split.
    + discriminate.
    + intros Hlook. apply Hinv in Hlook. congruence.
  - rewrite lookup_delete_eq, lookup_delete_ne by congruence. split.
    + intros Hlook. apply Hinv in Hlook. congruence.
    + discriminate.
  - rewrite !lookup_delete_ne by congruence. apply Hinv.
Qed.

(** A recorded pair keeps the tables inverse: the guard has checked that
    the handle and the address are both new. *)
Lemma try_record_mapping_inverse (d d' : XdnaDriver) (h a : Z) :
  tables_inverse d -> try_record_mapping d h a = Some d' -> tables_inverse d'.
Proof.
  intros Hinv. unfold try_record_mapping.
  destruct (vmem_handle_mappings d !! h) eqn:Hh; [discriminate|].
  destruct (vmem_addr_mappings d !! a) eqn:Ha; [discriminate|].
  intros [= <-]. now apply record_mapping_inverse.
Qed.

(** Every call keeps the tables inverse, whatever the kernel answers. *)
Lemma step_inverse (d : XdnaDriver) (c : call) :
  tables_inverse d -> tables_inverse (step d c).
Proof.
  intros Hinv. destruct c as [fits [[h a]|] | mem ok | [[h a]|] | hd]; cbn.
  - unfold AllocateMemory. destruct fits; cbn; [|assumption].
    destruct (try_record_mapping d h a) as [d'|] eqn:Hrec; cbn; [|assumption].
    now apply (try_record_mapping_inverse d d' h a).
  - unfold AllocateMemory. destruct fits; assumption.
  - unfold FreeMemory.
    destruct (vmem_addr_mappings d !! mem) as [h|] eqn:Hmem; [|assumption].
    destruct ok; cbn; [|assumption].
    apply forget_mapping_inverse; [assumption|]. now apply Hinv.
  - destruct (try_record_mapping d h a) as [d'|] eqn:Hrec; cbn; [|assumption].
    now apply (try_record_mapping_inverse d d' h a).
  - assumption.
  - unfold ReleaseShareableHandle.
    destruct (vmem_handle_mappings d !! handle hd) as [a|] eqn:Hh; [|assumption].
    cbn. now apply forget_mapping_inverse.
Qed.

Lemma run_inverse (cs : list call) (d : XdnaDriver) :
  tables_inverse d -> tables_inverse (run d cs).
Proof.
  revert d. induction cs as [|c cs IH]; intros d Hinv; [assumption|].
  apply (IH (step d c)). now apply step_inverse.
Qed.

(** C3. On one [XdnaDriver] instance, after every call of any sequence of
    [AllocateMemory], [FreeMemory], [ImportDMABuf] and
    [ReleaseShareableHandle] calls, whatever the kernel answers to them,
    the handle table and the address table are exact inverses: an entry of
    one is matched by exactly one entry of the other, and no handle or
    address is in one table only. *)
Theorem handle_tables_stay_inverse
    (devnode_name : string) (cs : list call) (n : nat) :
  let d := run (XdnaDriver_new devnode_name) (take n cs) in
  tables_inverse d
  /\ (forall h a, vmem_handle_mappings d !! h = Some a ->
        forall h', vmem_addr_mappings d !! a = Some h' -> h' = h)
  /\ (forall h a, vmem_addr_mappings d !! a = Some h ->
        forall a', vmem_handle_mappings d !! h = Some a' -> a' = a)
  /\ (forall h, is_Some (vmem_handle_mappings d !! h) <->
        exists a, vmem_addr_mappings d !! a = Some h)
  /\ (forall a, is_Some (vmem_addr_mappings d !! a) <->
        exists h, vmem_handle_mappings d !! h = Some a).
Proof.
  intros d.
  assert (Hinv : tables_inverse d).
  { apply run_inverse. apply tables_inverse_new. }
  split; [assumption|]. repeat split.
  - intros h a Hh h' Ha. apply Hinv in Hh. congruence.
  - intros h a Ha a' Hh. apply Hinv in Ha. congruence.
  - intros [a Hh]. exists a. now apply Hinv.
  - intros [a Ha]. exists a. now apply Hinv.
  - intros [h Ha]. exists h. now apply Hinv.
  - intros [h Hh]. exists h. now apply Hinv.
Qed.

(** The theorem on two runs. The first allocates two buffers, frees the
    first, imports a buffer under the handle that became free, and
    releases the second. In the second the kernel answers an import with
    a handle that is still in use: the import is refused with
    [InternalError] and the tables keep the one pair they had. *)
Lemma handle_tables_stay_inverse_witness :
  let cs := [CallAllocateMemory true (Some (1, 4096));
             CallAllocateMemory true (Some (2, 8192));
             CallFreeMemory 4096 true;
             CallImportDMABuf (Some (1, 12288));
             CallReleaseShareableHandle (mkShareableHandle 2)] in
  let reused := [CallAllocateMemory true (Some (1, 4096));
                 CallImportDMABuf (Some (1, 8192))] in
  statuses (XdnaDriver_new "/dev/accel/accel0") cs
    = [Success; Success; Success; Success; Success]
  /\ tables_inverse (run (XdnaDriver_new "/dev/accel/accel0") (take 5 cs))
  /\ statuses (XdnaDriver_new "/dev/accel/accel0") reused
     = [Success; InternalError]
  /\ map_to_list (vmem_handle_mappings
                    (run (XdnaDriver_new "/dev/accel/accel0") reused))
     = [(1, 4096)]
  /\ map_to_list (vmem_addr_mappings
                    (run (XdnaDriver_new "/dev/accel/accel0") reused))
     = [(4096, 1)]
  /\ tables_inverse (run (XdnaDriver_new "/dev/accel/accel0") (take 2 reused)).
Proof.
  cbv zeta. split; [vm_compute; reflexivity|].
  split.
  { apply (handle_tables_stay_inverse "/dev/accel/accel0"
             [CallAllocateMemory true (Some (1, 4096));
              CallAllocateMemory true (Some (2, 8192));
              CallFreeMemory 4096 true;
              CallImportDMABuf (Some (1, 12288));
              CallReleaseShareableHandle (mkShareableHandle 2)] 5). }
  split; [vm_compute; reflexivity|].
  split; [vm_compute; reflexivity|].
  split; [vm_compute; reflexivity|].
  apply (handle_tables_stay_inverse "/dev/accel/accel0"
           [CallAllocateMemory true (Some (1, 4096));
            CallImportDMABuf (Some (1, 8192))] 2).
Defined.

End HandleTables.


(** ** More on [clflush_data]: cost, order, composition, limits *)

Section ClflushRanges.
Import Machine Clflush.

(** The lines of a range of [len] bytes: at least the lines [len] bytes
    fill, and at most one more. *)
Lemma line_span_bounds (L first len : Z) :
  0 < L -> 0 <= first -> 1 <= len ->
  (len - 1) / L <= (first + len - 1) / L - first / L <= (len - 1) / L + 1.
Proof.
  intros HL Hfirst Hlen.
  pose proof (Z.div_mod first L ltac:(lia)) as Hf.
  pose proof (Z.mod_pos_bound first L HL) as Hfr.
  pose proof (Z.div_mod (len - 1) L ltac:(lia)) as Hl.
  pose proof (Z.mod_pos_bound (len - 1) L HL) as Hlr.
  replace (first + len - 1)
    with ((first mod L + (len - 1) mod L) + (first / L + (len - 1) / L) * L)
    by lia.
  rewrite Z.div_add by lia.
  assert (0 <= (first mod L + (len - 1) mod L) / L <= 1); [|lia].
  split; [apply Z.div_pos; lia|].
  apply Z.lt_succ_r. apply Z.div_lt_upper_bound; lia.
Qed.

(** What a call does on a range with one more line of room above it: it
    returns after one flush per line, at [first], [first + L], ... *)
Lemma clflush_data_returns
    (sysconf : nat -> Z) (w : World) (base offset len k : Z) (fuel : nat) :
  let L := 2 ^ k in
  let first := base + offset in
  let n := Z.to_nat (line_of L (first + len - 1) - line_of L first) in
  0 <= k < 63 -> discovered sysconf w L ->
  0 <= base -> 0 <= offset -> 1 <= len ->
  base + offset + len + L <= ptr_modulus ->
  (Z.to_nat ((len - 1) / L) + 1 < fuel)%nat ->
  snd (clflush_data sysconf fuel w base offset len) = true
  /\ flushes (fst (clflush_data sysconf fuel w base offset len))
     = flushes w ++ line_addrs (S n) first L
  /\ cacheline_size (fst (clflush_data sysconf fuel w base offset len)) = L.
Proof.
  intros L first n Hk Hdisc Hbase Hoff Hlen Hroom Hfuel.
  pose proof (pow2_bounds k Hk) as HL. fold L in HL.
  destruct (discover_known _ _ _ Hdisc) as (w1 & Hd & HL1 & Hfl).
  destruct (clflush_data_loop sysconf w w1 fuel base offset len Hd) as [Htr Hex].
  assert (Hsize : cacheline_size (fst (clflush_data sysconf fuel w base offset len)) = L).
  { unfold clflush_data. rewrite Hd. destruct (flush_loop _ _ _ _). cbn. exact HL1. }
  rewrite HL1, Hfl in *.
  assert (Hfirst : wrap (base + offset) = first) by (apply wrap_small; lia).
  rewrite Hfirst in *.
  assert (Hlastline : lastline_of L first len
                      = (first + len - 1) / L * L + (L - 1)).
  { unfold L. rewrite lastline_of_eq by (fold first; lia). reflexivity. }
  rewrite Hlastline in *.
  pose proof (line_span_bounds L first len ltac:(lia) ltac:(lia) Hlen) as Hspan.
  assert (Hfill : 0 <= (len - 1) / L) by (apply Z.div_pos; lia).
  assert (Hn : Z.of_nat n = (first + len - 1) / L - first / L).
  { unfold n, line_of. lia. }
  pose proof (line_end_in_range k (first + len - 1) Hk ltac:(lia)) as Hend.
  pose proof (line_end_below_top k (first + len - 1) Hk ltac:(lia) ltac:(lia)) as Htop.
  fold L in Hend, Htop.
  pose proof (Z.div_mod first L ltac:(lia)) as Hdm.
  pose proof (Z.mod_pos_bound first L ltac:(lia)) as Hrem.
  assert (Hexit : flush_loop fuel L ((first + len - 1) / L * L + (L - 1)) first
                  = (line_addrs (S n) first L, true)).
  { apply flush_loop_exit; try lia. rewrite lines_between by lia. lia. }
  rewrite Hexit in Htr, Hex. cbn [fst snd] in Htr, Hex. auto.
Qed.

(** The lines of the addresses of [line_addrs] are consecutive. *)
Lemma line_addrs_lines (L : Z) (n : nat) (cur : Z) :
  0 < L -> map (line_of L) (line_addrs n cur L) = consecutive n (line_of L cur).
Proof.
  intros HL. revert cur. induction n as [|n IH]; intros cur; [reflexivity|].
  cbn [line_addrs consecutive map]. rewrite IH. f_equal. f_equal.
  unfold line_of. replace (cur + L) with (cur + 1 * L) by lia.
  rewrite Z.div_add by lia. reflexivity.
Qed.

Lemma consecutive_In (n : nat) (l x : Z) :
  In x (consecutive n l) <-> l <= x < l + Z.of_nat n.
Proof.
  revert l. induction n as [|n IH]; intros l; cbn [consecutive In].
  - lia.
  - rewrite IH. lia.
Qed.

Lemma consecutive_NoDup (n : nat) (l : Z) : List.NoDup (consecutive n l).
Proof.
  revert l. induction n as [|n IH]; intros l; cbn [consecutive]; constructor.
  - rewrite consecutive_In. lia.
  - apply IH.
Qed.

Lemma consecutive_length (n : nat) (l : Z) : List.length (consecutive n l) = n.
Proof. revert l. induction n as [|n IH]; intros l; cbn; [|rewrite IH]; reflexivity. Qed.

(** The lines flushed by [line_addrs] are the [n] lines from the line of
    [cur] on. *)
Lemma flushes_line_line_addrs (L : Z) (n : nat) (cur l : Z) :
  0 < L ->
  flushes_line L (line_addrs n cur L) l
  <-> line_of L cur <= l < line_of L cur + Z.of_nat n.
Proof.
  intros HL. rewrite <- consecutive_In, <- line_addrs_lines by assumption.
  unfold flushes_line. rewrite in_map_iff. split.
  - intros (c & Hin & Hc). exists c. auto.
  - intros (c & Hc & Hin). exists c. auto.
Qed.

Lemma line_addrs_app (n m : nat) (cur L : Z) :
  line_addrs (n + m) cur L
  = line_addrs n cur L ++ line_addrs m (cur + Z.of_nat n * L) L.
Proof.
  revert cur. induction n as [|n IH]; intros cur.
  - cbn. f_equal. lia.
  - cbn [Nat.add line_addrs app]. rewrite IH. do 3 f_equal. lia.
Qed.

End ClflushRanges.

Section ClflushCost.
Import Machine Clflush.

(** The number of flushes of a call. On a range of [len >= 1] bytes with
    room for one more line above it, [clflush_data] returns after at least
    as many flushes as [len] bytes fill lines and at most one more;
    exactly as many when the range starts on a line boundary; a single
    flush when the range fits in what is left of the first line. *)
Theorem clflush_data_flush_count
    (sysconf : nat -> Z) (w : World) (base offset len k : Z) (fuel : nat) :
  let L := 2 ^ k in
  let first := base + offset in
  let r := clflush_data sysconf fuel w base offset len in
  0 <= k < 63 -> discovered sysconf w L ->
  0 <= base -> 0 <= offset -> 1 <= len ->
  base + offset + len + L <= ptr_modulus ->
  (Z.to_nat ((len - 1) / L) + 1 < fuel)%nat ->
  exists tr,
    snd r = true /\ flushes (fst r) = flushes w ++ tr
    /\ (len - 1) / L + 1 <= Z.of_nat (List.length tr) <= (len - 1) / L + 2
    /\ (first mod L = 0 -> Z.of_nat (List.length tr) = (len - 1) / L + 1)
    /\ (first mod L + len <= L -> List.length tr = 1%nat).
Proof.
  intros L first r Hk Hdisc Hbase Hoff Hlen Hroom Hfuel.
  destruct (clflush_data_returns sysconf w base offset len k fuel)
    as (Hret & Hfl & _); try assumption.
  fold L first in Hfl. pose proof (pow2_bounds k Hk) as HL. fold L in HL.
  pose proof (line_span_bounds L first len ltac:(lia) ltac:(lia) Hlen) as Hspan.
  assert (Hfill : 0 <= (len - 1) / L) by (apply Z.div_pos; lia).
  eexists. split; [exact Hret|]. split; [exact Hfl|].
  rewrite line_addrs_length. unfold line_of.
  pose proof (Z.div_mod first L ltac:(lia)) as Hdm.
  pose proof (Z.mod_pos_bound first L ltac:(lia)) as Hrem.
  split; [lia|]. split.
  - intros Haligned.
    replace (first + len - 1) with ((len - 1) + first / L * L) by lia.
    rewrite Z.div_add by lia. lia.
  - intros Hfits.
    replace (first + len - 1) with ((first mod L + len - 1) + first / L * L) by lia.
    rewrite Z.div_add by lia. rewrite Z.div_small by lia.
    replace (0 + first / L - first / L) with 0 by lia. reflexivity.
Qed.

(** The theorem at a range of 130 bytes that starts 10 bytes into a page,
    with lines of 64 bytes: three flushes, for two full lines and a bit. *)
Lemma clflush_data_flush_count_witness :
  exists tr,
    snd (clflush_data (fun _ => 64) 8 process_start 4096 10 130) = true
    /\ flushes (fst (clflush_data (fun _ => 64) 8 process_start 4096 10 130))
       = flushes process_start ++ tr
    /\ (130 - 1) / 64 + 1 <= Z.of_nat (List.length tr) <= (130 - 1) / 64 + 2
    /\ ((4096 + 10) mod 64 = 0 -> Z.of_nat (List.length tr) = (130 - 1) / 64 + 1)
    /\ ((4096 + 10) mod 64 + 130 <= 64 -> List.length tr = 1%nat).
Proof.
  apply (clflush_data_flush_count (fun _ => 64) process_start 4096 10 130 6 8).
  - lia.
  - split; [reflexivity|]. right. split; reflexivity.
  - lia.
  - lia.
  - lia.
  - vm_compute. discriminate.
  - vm_compute. lia.
Defined.

(** The order of the flushes of a call. On a range of [len >= 1] bytes with
    room for one more line above it, the lines flushed are the line of the
    first byte, the next line, and so on up to the line of the last byte,
    in this order: no line is flushed twice by one call. *)
Theorem clflush_data_flushes_each_line_once
    (sysconf : nat -> Z) (w : World) (base offset len k : Z) (fuel : nat) :
  let L := 2 ^ k in
  let first := base + offset in
  let r := clflush_data sysconf fuel w base offset len in
  0 <= k < 63 -> discovered sysconf w L ->
  0 <= base -> 0 <= offset -> 1 <= len ->
  base + offset + len + L <= ptr_modulus ->
  (Z.to_nat ((len - 1) / L) + 1 < fuel)%nat ->
  exists tr,
    flushes (fst r) = flushes w ++ tr
    /\ map (line_of L) tr = consecutive (List.length tr) (line_of L first)
    /\ line_of L first + Z.of_nat (List.length tr) - 1
       = line_of L (first + len - 1)
    /\ List.NoDup (map (line_of L) tr).
Proof.
  intros L first r Hk Hdisc Hbase Hoff Hlen Hroom Hfuel.
  destruct (clflush_data_returns sysconf w base offset len k fuel)
    as (_ & Hfl & _); try assumption.
  fold L first in Hfl. pose proof (pow2_bounds k Hk) as HL. fold L in HL.
  pose proof (line_span_bounds L first len ltac:(lia) ltac:(lia) Hlen) as Hspan.
  assert (Hfill : 0 <= (len - 1) / L) by (apply Z.div_pos; lia).
  eexists. split; [exact Hfl|].
  rewrite line_addrs_length, line_addrs_lines by lia.
  split; [reflexivity|]. split.
  - unfold line_of in *. lia.
  - apply consecutive_NoDup.
Qed.

(** The theorem at the same range: lines 64, 65 and 66 of the address
    space, each once. *)
Lemma clflush_data_flushes_each_line_once_witness :
  exists tr,
    flushes (fst (clflush_data (fun _ => 64) 8 process_start 4096 10 130))
      = flushes process_start ++ tr
    /\ map (line_of 64) tr = consecutive (List.length tr) (line_of 64 (4096 + 10))
    /\ line_of 64 (4096 + 10) + Z.of_nat (List.length tr) - 1
       = line_of 64 (4096 + 10 + 130 - 1)
    /\ List.NoDup (map (line_of 64) tr).
Proof.
  apply (clflush_data_flushes_each_line_once
           (fun _ => 64) process_start 4096 10 130 6 8).
  - lia.
  - split; [reflexivity|]. right. split; reflexivity.
  - lia.
  - lia.
  - lia.
  - vm_compute. discriminate.
  - vm_compute. lia.
Defined.

End ClflushCost.

Section ClflushComposition.
Import Machine Clflush.

Lemma flushes_line_app (L : Z) (tr tr' : list Z) (l : Z) :
  flushes_line L (tr ++ tr') l <-> flushes_line L tr l \/ flushes_line L tr' l.
Proof.
  unfold flushes_line. split.
  - intros (c & Hin & Hc). apply in_app_or in Hin as [Hin|Hin]; eauto.
  - intros [(c & Hin & Hc)|(c & Hin & Hc)]; exists c; split; auto;
      apply in_or_app; auto.
Qed.

(** The line of the next address is the same line or the next line. *)
Lemma line_of_succ (L x : Z) :
  0 < L -> line_of L x <= line_of L (x + 1) <= line_of L x + 1.
Proof.
  intros HL. unfold line_of. split.
  - apply Z.div_le_mono; lia.
  - replace (x / L + 1) with ((x + 1 * L) / L)
      by (rewrite Z.div_add by lia; reflexivity).
    apply Z.div_le_mono; lia.
Qed.

(** A run of two calls that both return is the second call made in the
    world that the first call leaves. *)
Lemma run_calls_two (sysconf : nat -> Z) (fuel : nat) (w : World)
    (base offset len base' offset' len' : Z) :
  snd (clflush_data sysconf fuel w base offset len) = true ->
  snd (clflush_data sysconf fuel
         (fst (clflush_data sysconf fuel w base offset len))
         base' offset' len') = true ->
  run_calls sysconf fuel w [(base, offset, len); (base', offset', len')]
  = clflush_data sysconf fuel
      (fst (clflush_data sysconf fuel w base offset len)) base' offset' len'.
Proof.
  cbn [run_calls].
  destruct (clflush_data sysconf fuel w base offset len) as [w1 ret1].
  cbn [fst snd]. intros -> Hret.
  destruct (clflush_data sysconf fuel w1 base' offset' len') as [w2 ret2].
  cbn [snd] in Hret. subst ret2. reflexivity.
Qed.

(** An address that is not on a line boundary is in the line of the
    address before it; an address on a line boundary starts the next
    line. *)
Lemma line_of_pred (L x : Z) :
  0 < L ->
  (x mod L = 0 -> line_of L x = line_of L (x - 1) + 1)
  /\ (x mod L <> 0 -> line_of L x = line_of L (x - 1)).
Proof.
  intros HL. unfold line_of.
  pose proof (Z.div_mod x L ltac:(lia)) as Hdm.
  pose proof (Z.mod_pos_bound x L HL) as Hrem.
  split; intros Hmod.
  - rewrite Hmod in Hdm.
    assert (Hx : x - 1 = (L - 1) + (x / L - 1) * L) by lia.
    rewrite Hx. rewrite (Z.div_add (L - 1)) by lia.
    rewrite (Z.div_small (L - 1) L) by lia. lia.
  - assert (Hx : x - 1 = (x mod L - 1) + (x / L) * L) by lia.
    rewrite Hx. rewrite (Z.div_add (x mod L - 1)) by lia.
    rewrite (Z.div_small (x mod L - 1) L) by lia. lia.
Qed.

(** Flushing a range in two pieces. On a range of [a + b] bytes that lies
    in the address space with room for one more line above it, with a
    discovered line size [L = 2 ^ k]: a call on the first [a >= 1] bytes
    followed by a call on the next [b >= 1] bytes both return, and
    together they flush the same lines as one call on the [a + b] bytes.
    When the cut [base + offset + a] is inside a line, that line, and no
    other, is flushed by both pieces, so the two calls make exactly one
    flush more than the single call; when the cut is on a line boundary no
    line is flushed by both pieces and the number of flushes is the
    same. *)
Theorem clflush_data_split_range
    (sysconf : nat -> Z) (w : World) (base offset a b k : Z) (fuel : nat) :
  let L := 2 ^ k in
  let cut := base + offset + a in
  let piece := clflush_data sysconf fuel w base offset a in
  let two := run_calls sysconf fuel w [(base, offset, a); (base, offset + a, b)] in
  let one := clflush_data sysconf fuel w base offset (a + b) in
  0 <= k < 63 -> discovered sysconf w L ->
  0 <= base -> 0 <= offset -> 1 <= a -> 1 <= b ->
  base + offset + a + b + L <= ptr_modulus ->
  (Z.to_nat ((a + b - 1) / L) + 1 < fuel)%nat ->
  exists trA trB tr1,
    snd piece = true /\ snd two = true /\ snd one = true
    /\ flushes (fst piece) = flushes w ++ trA
    /\ flushes (fst two) = flushes w ++ trA ++ trB
    /\ flushes (fst one) = flushes w ++ tr1
    /\ (forall l, flushes_line L (trA ++ trB) l <-> flushes_line L tr1 l)
    /\ (forall l, flushes_line L trA l /\ flushes_line L trB l
                  <-> cut mod L <> 0 /\ l = line_of L cut)
    /\ (cut mod L <> 0 ->
          List.length (trA ++ trB) = S (List.length tr1))
    /\ (cut mod L = 0 -> List.length (trA ++ trB) = List.length tr1)
    /\ (List.length tr1 <= List.length (trA ++ trB) <= List.length tr1 + 1)%nat.
Proof.
  intros L cut piece two one Hk Hdisc Hbase Hoff Ha Hb Hroom Hfuel.
  pose proof (pow2_bounds k Hk) as HL. fold L in HL.
  assert (Hfa : (Z.to_nat ((a - 1) / L) <= Z.to_nat ((a + b - 1) / L))%nat).
  { apply Z2Nat.inj_le; try (apply Z.div_pos; lia). apply Z.div_le_mono; lia. }
  assert (Hfb : (Z.to_nat ((b - 1) / L) <= Z.to_nat ((a + b - 1) / L))%nat).
  { apply Z2Nat.inj_le; try (apply Z.div_pos; lia). apply Z.div_le_mono; lia. }
  assert (HfuelA : (Z.to_nat ((a - 1) / L) + 1 < fuel)%nat) by lia.
  assert (HfuelB : (Z.to_nat ((b - 1) / L) + 1 < fuel)%nat) by lia.
  assert (HroomA : base + offset + a + L <= ptr_modulus) by lia.
  assert (HroomB : base + (offset + a) + b + L <= ptr_modulus) by lia.
  assert (HroomU : base + offset + (a + b) + L <= ptr_modulus) by lia.
  assert (HoffB : 0 <= offset + a) by lia.
  assert (Hab : 1 <= a + b) by lia.
  destruct (clflush_data_returns sysconf w base offset a k fuel)
    as (HretA & HflA & HsizeA); try assumption.
  fold L piece in HretA, HflA, HsizeA.
  assert (HdiscA : discovered sysconf (fst piece) L).
  { split; [lia|]. left. exact HsizeA. }
  destruct (clflush_data_returns sysconf (fst piece) base (offset + a) b k fuel)
    as (HretB & HflB & _); try assumption.
  fold L in HflB.
  destruct (clflush_data_returns sysconf w base offset (a + b) k fuel)
    as (HretU & HflU & _); try assumption.
  fold L in HflU. fold one in HretU, HflU.
  assert (Htwo : two = clflush_data sysconf fuel (fst piece) base (offset + a) b).
  { unfold two, piece. apply run_calls_two; assumption. }
  rewrite <- Htwo in HretB, HflB. rewrite HflA, <- app_assoc in HflB.
  do 3 eexists. split; [exact HretA|]. split; [exact HretB|].
  split; [exact HretU|]. split; [exact HflA|].
  split; [exact HflB|]. split; [exact HflU|].
  set (first := base + offset) in *.
  replace (base + (offset + a)) with cut in * by (unfold cut, first; lia).
  replace (first + a - 1) with (cut - 1) in * by (unfold cut, first; lia).
  replace (cut + b - 1) with (first + (a + b) - 1) in *
    by (unfold cut, first; lia).
  (* the four lines that matter, and how they are ordered *)
  assert (Hfa' : line_of L first <= line_of L (cut - 1)).
  { unfold line_of. apply Z.div_le_mono; unfold cut, first; lia. }
  assert (Hcu : line_of L cut <= line_of L (first + (a + b) - 1)).
  { unfold line_of. apply Z.div_le_mono; unfold cut, first; lia. }
  destruct (line_of_pred L cut ltac:(lia)) as [Hon Hin].
  set (lf := line_of L first) in *.
  set (la := line_of L (cut - 1)) in *.
  set (lc := line_of L cut) in *.
  set (lu := line_of L (first + (a + b) - 1)) in *.
  assert (HnA : Z.of_nat (S (Z.to_nat (la - lf))) = la - lf + 1) by lia.
  assert (HnB : Z.of_nat (S (Z.to_nat (lu - lc))) = lu - lc + 1) by lia.
  assert (HnU : Z.of_nat (S (Z.to_nat (lu - lf))) = lu - lf + 1).
  { destruct (Z.eq_dec (cut mod L) 0) as [E|E];
      [specialize (Hon E)|specialize (Hin E)]; lia. }
  assert (Hlen : Z.of_nat (List.length
                   (line_addrs (S (Z.to_nat (la - lf))) first L ++
                    line_addrs (S (Z.to_nat (lu - lc))) cut L))
                 = (la - lf + 1) + (lu - lc + 1)).
  { rewrite length_app, !line_addrs_length. lia. }
  assert (Hlen1 : Z.of_nat (List.length
                    (line_addrs (S (Z.to_nat (lu - lf))) first L))
                  = lu - lf + 1).
  { rewrite line_addrs_length. lia. }
  assert (HlineA : forall l,
             flushes_line L (line_addrs (S (Z.to_nat (la - lf))) first L) l
             <-> lf <= l <= la).
  { intros l. rewrite flushes_line_line_addrs by lia. fold lf. lia. }
  assert (HlineB : forall l,
             flushes_line L (line_addrs (S (Z.to_nat (lu - lc))) cut L) l
             <-> lc <= l <= lu).
  { intros l. rewrite flushes_line_line_addrs by lia. fold lc. lia. }
  assert (HlineU : forall l,
             flushes_line L (line_addrs (S (Z.to_nat (lu - lf))) first L) l
             <-> lf <= l <= lu).
  { intros l. rewrite flushes_line_line_addrs by lia. fold lf. lia. }
  clearbody lf la lc lu.
  destruct (Z.eq_dec (cut mod L) 0) as [E|E];
    [specialize (Hon E); clear Hin | specialize (Hin E); clear Hon].
  - split; [intros l; rewrite flushes_line_app, HlineA, HlineB, HlineU; lia|].
    split; [intros l; rewrite HlineA, HlineB; lia|].
    split; [intros; contradiction|].
    split; [intros _; apply Nat2Z.inj; lia|]. lia.
  - split; [intros l; rewrite flushes_line_app, HlineA, HlineB, HlineU; lia|].
    split; [intros l; rewrite HlineA, HlineB; split; [intros; split; [assumption|lia] | lia]|].
    split; [intros _; apply Nat2Z.inj; lia|].
    split; [intros; contradiction|]. lia.
Qed.

(** The theorem at a range of 130 bytes cut after 100 bytes: the cut, at
    address 4206, is inside line 65, which both pieces flush. *)
Lemma clflush_data_split_range_witness :
  exists trA trB tr1,
    snd (clflush_data (fun _ => 64) 8 process_start 4096 10 100) = true
    /\ snd (run_calls (fun _ => 64) 8 process_start
              [(4096, 10, 100); (4096, 10 + 100, 30)]) = true
    /\ snd (clflush_data (fun _ => 64) 8 process_start 4096 10 (100 + 30)) = true
    /\ flushes (fst (clflush_data (fun _ => 64) 8 process_start 4096 10 100))
       = flushes process_start ++ trA
    /\ flushes (fst (run_calls (fun _ => 64) 8 process_start
                       [(4096, 10, 100); (4096, 10 + 100, 30)]))
       = flushes process_start ++ trA ++ trB
    /\ flushes (fst (clflush_data (fun _ => 64) 8 process_start 4096 10 (100 + 30)))
       = flushes process_start ++ tr1
    /\ (forall l, flushes_line 64 (trA ++ trB) l <-> flushes_line 64 tr1 l)
    /\ (forall l, flushes_line 64 trA l /\ flushes_line 64 trB l
                  <-> (4096 + 10 + 100) mod 64 <> 0
                      /\ l = line_of 64 (4096 + 10 + 100))
    /\ ((4096 + 10 + 100) mod 64 <> 0 ->
          List.length (trA ++ trB) = S (List.length tr1))
    /\ ((4096 + 10 + 100) mod 64 = 0 ->
          List.length (trA ++ trB) = List.length tr1)
    /\ (List.length tr1 <= List.length (trA ++ trB) <= List.length tr1 + 1)%nat.
Proof.
  apply (clflush_data_split_range (fun _ => 64) process_start 4096 10 100 30 6 8).
  - lia.
  - split; [reflexivity|]. right. split; reflexivity.
  - lia.
  - lia.
  - lia.
  - lia.
  - vm_compute. discriminate.
  - vm_compute. lia.
Defined.

(** A longer range only adds flushes. From the same start address, the
    flushes of a call on [len] bytes are the first flushes of a call on
    [len'] bytes, [len <= len']. *)
Theorem clflush_data_longer_range_extends
    (sysconf : nat -> Z) (w : World) (base offset len len' k : Z) (fuel : nat) :
  let L := 2 ^ k in
  0 <= k < 63 -> discovered sysconf w L ->
  0 <= base -> 0 <= offset -> 1 <= len <= len' ->
  base + offset + len' + L <= ptr_modulus ->
  (Z.to_nat ((len' - 1) / L) + 1 < fuel)%nat ->
  exists tr more,
    flushes (fst (clflush_data sysconf fuel w base offset len))
      = flushes w ++ tr
    /\ flushes (fst (clflush_data sysconf fuel w base offset len'))
       = flushes w ++ tr ++ more.
Proof.
  intros L Hk Hdisc Hbase Hoff Hlen Hroom Hfuel.
  pose proof (pow2_bounds k Hk) as HL. fold L in HL.
  assert (Hf : (Z.to_nat ((len - 1) / L) <= Z.to_nat ((len' - 1) / L))%nat).
  { apply Z2Nat.inj_le; try (apply Z.div_pos; lia). apply Z.div_le_mono; lia. }
  assert (Hfuel0 : (Z.to_nat ((len - 1) / L) + 1 < fuel)%nat) by lia.
  assert (Hroom0 : base + offset + len + L <= ptr_modulus) by lia.
  assert (Hlen0 : 1 <= len) by lia.
  assert (Hlen1 : 1 <= len') by lia.
  destruct (clflush_data_returns sysconf w base offset len k fuel)
    as (_ & Hfl & _); try assumption.
  destruct (clflush_data_returns sysconf w base offset len' k fuel)
    as (_ & Hfl' & _); try assumption.
  fold L in Hfl, Hfl'.
  set (first := base + offset) in *.
  set (n := Z.to_nat (line_of L (first + len - 1) - line_of L first)) in *.
  set (n' := Z.to_nat (line_of L (first + len' - 1) - line_of L first)) in *.
  assert (Hn : (n <= n')%nat).
  { unfold n, n', line_of. apply Z2Nat.inj_le.
    - assert (first / L <= (first + len - 1) / L) by (apply Z.div_le_mono; lia). lia.
    - assert (first / L <= (first + len' - 1) / L) by (apply Z.div_le_mono; lia). lia.
    - assert ((first + len - 1) / L <= (first + len' - 1) / L)
        by (apply Z.div_le_mono; lia). lia. }
  exists (line_addrs (S n) first L),
         (line_addrs (n' - n) (first + Z.of_nat (S n) * L) L).
  split; [exact Hfl|]. rewrite Hfl', <- line_addrs_app.
  do 2 f_equal. lia.
Qed.

(** The theorem at ranges of 1 and of 130 bytes from the same address. *)
Lemma clflush_data_longer_range_extends_witness :
  exists tr more,
    flushes (fst (clflush_data (fun _ => 64) 8 process_start 4096 10 1))
      = flushes process_start ++ tr
    /\ flushes (fst (clflush_data (fun _ => 64) 8 process_start 4096 10 130))
       = flushes process_start ++ tr ++ more.
Proof.
  apply (clflush_data_longer_range_extends
           (fun _ => 64) process_start 4096 10 1 130 6 8).
  - lia.
  - split; [reflexivity|]. right. split; reflexivity.
  - lia.
  - lia.
  - lia.
  - vm_compute. discriminate.
  - vm_compute. lia.
Defined.

End ClflushComposition.

Section ClflushLimits.
Import Machine Clflush.

(** The end of the address space. When the last byte of the range, computed
    as the code computes it, is in the last cache line of the address
    space, [lastline] is the largest address and the test of the loop can
    not fail: the call does not return, however many iterations it is
    given. A call with [len = 0] at address 0 is such a call, as its "last
    byte" wraps around to the largest address. *)
Theorem clflush_data_top_line_never_returns
    (sysconf : nat -> Z) (w : World) (base offset len k : Z) (fuel : nat) :
  let L := 2 ^ k in
  0 <= k < 63 -> discovered sysconf w L ->
  ptr_modulus - L <= wrap (wrap (base + offset) + len - 1) ->
  snd (clflush_data sysconf fuel w base offset len) = false.
Proof.
  intros L Hk Hdisc Htop.
  pose proof (pow2_bounds k Hk) as HL. fold L in HL.
  destruct (discover_known _ _ _ Hdisc) as (w1 & Hd & HL1 & Hfl).
  destruct (clflush_data_loop sysconf w w1 fuel base offset len Hd) as [_ Hex].
  rewrite Hex, HL1.
  set (x := wrap (wrap (base + offset) + len - 1)) in *.
  assert (Hx : 0 <= x < ptr_modulus).
  { unfold x, wrap. apply Z.mod_pos_bound. reflexivity. }
  assert (Hlast : lastline_of L (wrap (base + offset)) len = ptr_modulus - 1).
  { unfold lastline_of. fold x. rewrite (wrap_small (L - 1)) by lia.
    unfold L. rewrite lor_low_bits by lia. fold L.
    pose proof (pow2_divides_modulus k Hk) as Hmod. fold L in Hmod.
    assert (Hq : x / L = 2 ^ (64 - k) - 1).
    { replace x with ((x - (ptr_modulus - L)) + (2 ^ (64 - k) - 1) * L) by lia.
      rewrite Z.div_add by lia. rewrite Z.div_small by lia. lia. }
    rewrite Hq. lia. }
  rewrite Hlast. apply flush_loop_top_line.
Qed.

(** The theorem at a call with length zero at address 0, with lines of 64
    bytes already cached. *)
Lemma clflush_data_top_line_never_returns_witness :
  snd (clflush_data (fun _ => 64) 1000 (mkWorld 64 1 []) 0 0 0) = false.
Proof.
  apply (clflush_data_top_line_never_returns
           (fun _ => 64) (mkWorld 64 1 []) 0 0 0 6 1000).
  - lia.
  - split; [reflexivity|]. left. reflexivity.
  - vm_compute. discriminate.
Defined.

(** One call keeps [discovery_inv], whether or not it returns within its
    fuel: the discovery is over before the loop starts. *)
Lemma clflush_data_discovery_inv
    (sysconf : nat -> Z) (fuel : nat) (w : World) (base offset len : Z) :
  discovery_inv sysconf w ->
  discovery_inv sysconf (fst (clflush_data sysconf fuel w base offset len)).
Proof.
  intros Hinv. unfold clflush_data, discover.
  destruct (Z.eqb_spec (cacheline_size w) 0) as [Hzero|Hne].
  - assert (Hfail : forall m, (m < sysconf_calls w)%nat -> sysconf m <= 0).
    { destruct Hinv as [[_ H]|(n & _ & Hsz & Hpos & _)]; [exact H|lia]. }
    destruct (Z.leb_spec (sysconf (sysconf_calls w)) 0) as [Hle|Hgt]; cbn.
    + left. split; [assumption|]. intros m Hm. cbn in Hm.
      destruct (Nat.eq_dec m (sysconf_calls w)) as [->|]; [assumption|].
      apply Hfail. lia.
    + destruct (flush_loop _ _ _ _). cbn. right.
      exists (sysconf_calls w). repeat split; auto; lia.
  - destruct (flush_loop _ _ _ _). cbn.
    destruct Hinv as [[Hzero _]|Hright]; [contradiction|]. right. exact Hright.
Qed.

(** One call makes at most one call of [sysconf]. *)
Lemma clflush_data_sysconf_calls
    (sysconf : nat -> Z) (fuel : nat) (w : World) (base offset len : Z) :
  (sysconf_calls w
   <= sysconf_calls (fst (clflush_data sysconf fuel w base offset len))
   <= S (sysconf_calls w))%nat.
Proof.
  unfold clflush_data, discover.
  destruct (cacheline_size w =? 0);
    [destruct (sysconf (sysconf_calls w) <=? 0)|];
    cbn; try destruct (flush_loop _ _ _ _); cbn; lia.
Qed.

(** The lazy discovery over the life of a process. After any sequence of
    calls made from the start of the process, for any answers of
    [sysconf]: either nothing is cached and every answer so far was a
    failure, or the cached size is the first positive answer of [sysconf],
    and that answer was its last call. In both cases the cached size is
    not negative, and [sysconf] was called at most once per call of
    [clflush_data]. *)
Theorem clflush_data_caches_first_positive_answer
    (sysconf : nat -> Z) (fuel : nat) (cs : list (Z * Z * Z)) :
  let w := fst (run_calls sysconf fuel process_start cs) in
  discovery_inv sysconf w
  /\ 0 <= cacheline_size w
  /\ (sysconf_calls w <= List.length cs)%nat.
Proof.
  assert (Hrun : forall cs w0,
             discovery_inv sysconf w0 ->
             discovery_inv sysconf (fst (run_calls sysconf fuel w0 cs))
             /\ (sysconf_calls (fst (run_calls sysconf fuel w0 cs))
                 <= sysconf_calls w0 + List.length cs)%nat).
  { clear cs. induction cs as [|[[base offset] len] cs IH]; intros w0 Hinv.
    - cbn. split; [assumption|lia].
    - cbn [run_calls List.length].
      pose proof (clflush_data_discovery_inv sysconf fuel w0 base offset len Hinv) as Hstep.
      pose proof (clflush_data_sysconf_calls sysconf fuel w0 base offset len) as Hcalls.
      destruct (clflush_data sysconf fuel w0 base offset len) as [w1 ret].
      cbn [fst] in Hstep, Hcalls. destruct ret.
      + destruct (IH w1 Hstep) as [Hinv1 Hle]. split; [assumption|lia].
      + cbn [fst]. split; [assumption|lia]. }
  intros w. destruct (Hrun cs process_start) as [Hinv Hle].
  { left. split; [reflexivity|]. cbn. intros m Hm. lia. }
  fold w in Hinv, Hle. split; [assumption|]. split; [|exact Hle].
  destruct Hinv as [[-> _]|(n & _ & -> & Hpos & _)]; lia.
Qed.

End ClflushLimits.

(** ** More on the permission translation: the bits granted *)

Section PermissionBits.
Import Perm.
Context {abi : Abi}.

(** What the [PROT_*] macros have to be for the results to make sense as
    bit sets: [PROT_NONE] is the empty set, [PROT_READ] and [PROT_WRITE]
    are two non-empty sets with no bit in common. *)
Lemma prot_flags_distinct :
  PROT_NONE = 0 -> PROT_READ <> 0 -> PROT_WRITE <> 0 ->
  Z.land PROT_READ PROT_WRITE = 0 ->
  PROT_READ <> PROT_WRITE
  /\ Z.lor PROT_READ PROT_WRITE <> PROT_READ
  /\ Z.lor PROT_READ PROT_WRITE <> PROT_WRITE
  /\ Z.lor PROT_READ PROT_WRITE <> 0.
Proof.
  intros Hnone Hr Hw Hdisj. repeat split.
  - intros E. rewrite E, Z.land_diag in Hdisj. contradiction.
  - intros E. apply Hw.
    assert (H : Z.land (Z.lor PROT_READ PROT_WRITE) PROT_WRITE = PROT_WRITE).
    { rewrite Z.land_lor_distr_l, Hdisj, Z.land_diag. reflexivity. }
    rewrite E, Hdisj in H. congruence.
  - intros E. apply Hr.
    assert (H : Z.land (Z.lor PROT_READ PROT_WRITE) PROT_READ = PROT_READ).
    { rewrite Z.land_lor_distr_l, Z.land_diag, (Z.land_comm PROT_WRITE), Hdisj.
      apply Z.lor_0_r. }
    rewrite E, (Z.land_comm PROT_WRITE), Hdisj in H. congruence.
  - intros E. apply Z.lor_eq_0_iff in E as [E _]. contradiction.
Qed.

(** Which permissions grant which access. With [PROT_NONE] empty and
    [PROT_READ], [PROT_WRITE] non-empty and disjoint, the protection
    returned holds the read bits exactly for RO and RW, and the write
    bits exactly for WO and RW: no other value of the argument, NONE
    included, yields any read or write access. *)
Theorem PermissionsToMmapFlags_grants_read_write (perms : Z) :
  PROT_NONE = 0 -> PROT_READ <> 0 -> PROT_WRITE <> 0 ->
  Z.land PROT_READ PROT_WRITE = 0 ->
  (Z.land (Driver_PermissionsToMmapFlags perms) PROT_READ = PROT_READ
     <-> perms = HSA_ACCESS_PERMISSION_RO \/ perms = HSA_ACCESS_PERMISSION_RW)
  /\ (Z.land (Driver_PermissionsToMmapFlags perms) PROT_WRITE = PROT_WRITE
     <-> perms = HSA_ACCESS_PERMISSION_WO \/ perms = HSA_ACCESS_PERMISSION_RW)
  /\ (Z.land (rocr_PermissionsToMmapFlags perms) PROT_READ = PROT_READ
     <-> perms = HSA_ACCESS_PERMISSION_RO \/ perms = HSA_ACCESS_PERMISSION_RW)
  /\ (Z.land (rocr_PermissionsToMmapFlags perms) PROT_WRITE = PROT_WRITE
     <-> perms = HSA_ACCESS_PERMISSION_WO \/ perms = HSA_ACCESS_PERMISSION_RW).
Proof.
  intros Hnone Hr Hw Hdisj.
  pose proof case_labels_distinct as (H1 & H2 & H3 & H4 & H5 & H6).
  assert (Hwr : Z.land PROT_WRITE PROT_READ = 0) by (now rewrite Z.land_comm).
  assert (Hrwr : Z.land (Z.lor PROT_READ PROT_WRITE) PROT_READ = PROT_READ).
  { rewrite Z.land_lor_distr_l, Z.land_diag, Hwr. apply Z.lor_0_r. }
  assert (Hrww : Z.land (Z.lor PROT_READ PROT_WRITE) PROT_WRITE = PROT_WRITE).
  { rewrite Z.land_lor_distr_l, Z.land_diag, Hdisj. reflexivity. }
  assert (Hboth :
    (Z.land (Driver_PermissionsToMmapFlags perms) PROT_READ = PROT_READ
       <-> perms = HSA_ACCESS_PERMISSION_RO \/ perms = HSA_ACCESS_PERMISSION_RW)
    /\ (Z.land (Driver_PermissionsToMmapFlags perms) PROT_WRITE = PROT_WRITE
       <-> perms = HSA_ACCESS_PERMISSION_WO \/ perms = HSA_ACCESS_PERMISSION_RW)).
  { destruct (Driver_PermissionsToMmapFlags_cases perms)
      as [[E ->]|[[E ->]|[[E ->]|[[E ->]|[(U1 & U2 & U3 & U4) ->]]]]];
      rewrite ?Hnone, ?Z.land_diag, ?Hdisj, ?Hwr, ?Hrwr, ?Hrww, ?Z.land_0_l;
      subst; split; split; intros; try tauto; try congruence;
      match goal with
      | H : _ \/ _ |- _ => destruct H; congruence
      end. }
  destruct Hboth as [Hread Hwrite]. repeat split; try apply Hread; try apply Hwrite.
Qed.

(** When two permissions get the same protection. With the same reading of
    the [PROT_*] macros, two values of the argument are translated to the
    same flags exactly when they are equal or both are among the values
    that give no access: RO, WO and RW are told apart from each other and
    from everything else. *)
Theorem PermissionsToMmapFlags_same_flags_iff (p q : Z) :
  PROT_NONE = 0 -> PROT_READ <> 0 -> PROT_WRITE <> 0 ->
  Z.land PROT_READ PROT_WRITE = 0 ->
  let no_access x :=
    x <> HSA_ACCESS_PERMISSION_RO /\ x <> HSA_ACCESS_PERMISSION_WO /\
    x <> HSA_ACCESS_PERMISSION_RW in
  (Driver_PermissionsToMmapFlags p = Driver_PermissionsToMmapFlags q
     <-> p = q \/ (no_access p /\ no_access q))
  /\ (Driver_PermissionsToMmapFlags p = PROT_NONE <-> no_access p).
Proof.
  intros Hnone Hr Hw Hdisj no_access.
  pose proof case_labels_distinct as (H1 & H2 & H3 & H4 & H5 & H6).
  destruct (prot_flags_distinct Hnone Hr Hw Hdisj) as (D1 & D2 & D3 & D4).
  unfold no_access.
  destruct (Driver_PermissionsToMmapFlags_cases p)
    as [[Ep ->]|[[Ep ->]|[[Ep ->]|[[Ep ->]|[(P1 & P2 & P3 & P4) ->]]]]];
  destruct (Driver_PermissionsToMmapFlags_cases q)
    as [[Eq ->]|[[Eq ->]|[[Eq ->]|[[Eq ->]|[(Q1 & Q2 & Q3 & Q4) ->]]]]];
  rewrite ?Hnone; subst; repeat split; intros;
    repeat match goal with
           | H : _ \/ _ |- _ => destruct H
           | H : _ /\ _ |- _ => destruct H
           end;
    try congruence; try tauto; auto.
Qed.

End PermissionBits.

(** The theorem with the values of Linux, at RW. *)
Lemma PermissionsToMmapFlags_grants_read_write_witness :
  Z.land (Perm.Driver_PermissionsToMmapFlags (abi := Perm.linux) 3) 1 = 1
  /\ Z.land (Perm.Driver_PermissionsToMmapFlags (abi := Perm.linux) 3) 2 = 2.
Proof.
  destruct (PermissionsToMmapFlags_grants_read_write (abi := Perm.linux) 3)
    as (Hread & Hwrite & _); try reflexivity; try discriminate.
  split; [apply Hread | apply Hwrite]; right; reflexivity.
Defined.

(** The theorem with the values of Linux: RO and RW differ, and two
    values outside the enumeration agree. *)
Lemma PermissionsToMmapFlags_same_flags_iff_witness :
  Perm.Driver_PermissionsToMmapFlags (abi := Perm.linux) 1
    <> Perm.Driver_PermissionsToMmapFlags (abi := Perm.linux) 3
  /\ Perm.Driver_PermissionsToMmapFlags (abi := Perm.linux) 7
     = Perm.Driver_PermissionsToMmapFlags (abi := Perm.linux) (-1).
Proof.
  destruct (PermissionsToMmapFlags_same_flags_iff (abi := Perm.linux) 1 3)
    as [Hdiff _]; try reflexivity; try discriminate.
  destruct (PermissionsToMmapFlags_same_flags_iff (abi := Perm.linux) 7 (-1))
    as [Hsame _]; try reflexivity; try discriminate.
  split.
  - intros E. apply Hdiff in E as [E|[(E & _) _]]; [discriminate E|].
    apply E. reflexivity.
  - apply Hsame. right. repeat split; discriminate.
Defined.

(** ** The bound on the loop is only a bound *)

Section FuelAdequacy.
Import Machine Clflush.

(** Once the loop is left within [fuel] iterations, more iterations change
    nothing. *)
Lemma flush_loop_fuel_mono (fuel fuel' : nat) (L lastline cur : Z) :
  snd (flush_loop fuel L lastline cur) = true -> (fuel <= fuel')%nat ->
  flush_loop fuel' L lastline cur = flush_loop fuel L lastline cur.
Proof.
  revert fuel' cur. induction fuel as [|fuel IH]; intros fuel' cur Hret Hle.
  - discriminate Hret.
  - destruct fuel' as [|fuel']; [lia|]. cbn [flush_loop] in *.
    destruct (wrap (cur + L) <=? lastline); [|reflexivity].
    specialize (IH fuel' (wrap (cur + L))).
    destruct (flush_loop fuel L lastline (wrap (cur + L))) as [tr ex].
    cbn [snd] in Hret. rewrite IH by (cbn; auto; lia). reflexivity.
Qed.

(** A call that returns within [fuel] iterations has the same outcome with
    any larger bound. *)
Lemma clflush_data_fuel_mono
    (sysconf : nat -> Z) (fuel fuel' : nat) (w : World) (base offset len : Z) :
  snd (clflush_data sysconf fuel w base offset len) = true ->
  (fuel <= fuel')%nat ->
  clflush_data sysconf fuel' w base offset len
  = clflush_data sysconf fuel w base offset len.
Proof.
  unfold clflush_data. destruct (discover sysconf w) as [w'|w1]; [reflexivity|].
  intros Hret Hle.
  rewrite (flush_loop_fuel_mono fuel fuel'); [reflexivity| |assumption].
  destruct (flush_loop fuel _ _ _). exact Hret.
Qed.

End FuelAdequacy.
